(** * SerialReader: the serial session engine and the key extractor

    A shallow embedding of [SerialReader/runner.cpp]:

    - [Runner::loop], one scanner pass over the serial byte stream, together
      with the injector thread it spawns (the lambda started on the LOADED
      marker), as a small-step interleaving semantics;
    - the two drivers [SerialReader::run] (one capture file per round, and
      the overload bound to a caller supplied stream);
    - the bit selection at the end of [gen_key].

    [runner.h], [parser.h] and [logger.h] are not part of the sources at
    hand.  The marker bytes and the flush interval they define are taken as
    a parameter ([Macros]); the [Parser] getters used by the code are fields
    of a record.

    [read] hands the bytes of the serial line to the loop in chunks of at
    most [BUFFER_SIZE] bytes, and a call that delivers nothing is repeated;
    the loop body sees the bytes one by one.  The model keeps the bytes
    still to come in one list, [stream].  The operator thread compiled in
    with [USER_INPUT] only forwards typed lines to the serial line and is
    left out.

    Of [firmware/sdram.c] the memory self test ([selftest_at], [selftest])
    is embedded, over a memory whose cells may fail to keep what is written
    to them.  The rest of that file programs the registers of the SDRAM
    controller and the clock manager; their definitions ([hardware.h]) are
    not part of the sources at hand. *)

From Stdlib Require Import ZArith List Bool Ascii String Lia.
From stdpp Require Import base list.
Import ListNotations.
Local Open Scope Z_scope.

(** ** Machine integers

    [count], [charCount] and the bit counter of [gen_key] are C++ [int]s.
    They are modelled as [Z] inside the 32-bit range; [++] at [INT_MAX]
    (undefined behaviour in C++) is written out as the two's complement
    wrap-around the target machines perform. *)

Definition INT_MAX : Z := 2147483647.
Definition INT_MIN : Z := -2147483648.

Definition int_incr (x : Z) : Z :=
  if x =? INT_MAX then INT_MIN else x + 1.

(** ** Markers and the macros of runner.h *)

Inductive Marker := START | END | LOADED | ASK_INPUT | FINISHED | PANIC.

Definition Marker_eqb (a b : Marker) : bool :=
  match a, b with
  | START, START | END, END | LOADED, LOADED
  | ASK_INPUT, ASK_INPUT | FINISHED, FINISHED | PANIC, PANIC => true
  | _, _ => false
  end.

Record Macros := {
  START_1 : ascii;     START_2 : ascii;
  END_1 : ascii;       END_2 : ascii;
  LOADED_1 : ascii;    LOADED_2 : ascii;
  ASK_INPUT_1 : ascii; ASK_INPUT_2 : ascii;
  FINISHED_1 : ascii;  FINISHED_2 : ascii;
  PANIC_1 : ascii;     PANIC_2 : ascii;
  FLUSH_INTERVAL : Z
}.

(** The [if / else if] chain of [Runner::loop] (lines 146-190): the first
    pair that matches [(lastChar, in)] decides which branch runs. *)
Definition classify (M : Macros) (lastChar c : ascii) : option Marker :=
  if Ascii.eqb (START_1 M) lastChar && Ascii.eqb (START_2 M) c then Some START
  else if Ascii.eqb (END_1 M) lastChar && Ascii.eqb (END_2 M) c then Some END
  else if Ascii.eqb (LOADED_1 M) lastChar && Ascii.eqb (LOADED_2 M) c then Some LOADED
  else if Ascii.eqb (ASK_INPUT_1 M) lastChar && Ascii.eqb (ASK_INPUT_2 M) c then Some ASK_INPUT
  else if Ascii.eqb (FINISHED_1 M) lastChar && Ascii.eqb (FINISHED_2 M) c then Some FINISHED
  else if Ascii.eqb (PANIC_1 M) lastChar && Ascii.eqb (PANIC_2 M) c then Some PANIC
  else None.

(** The getters of [Parser] the code calls. *)
Record Parser := {
  getMaxMeasures : Z;
  getParams : list string;
  getUSBPort : Z;
  getUSBSleepTime : Z
}.

(** ** The capture sink

    [pufOutput] is a [std::ostream&]: a [std::ofstream] in the multi-round
    driver, a [std::ostringstream] in [gen_key].  Only an [ofstream] is
    closed by the [dynamic_cast] branches; a character inserted into a
    closed [ofstream] is dropped by the stream. *)

Inductive SinkKind := FileSink | MemorySink.

Record Sink := {
  kind : SinkKind;
  is_open : bool;
  data : list ascii;
  flushes : nat
}.

Definition new_sink (k : SinkKind) : Sink :=
  {| kind := k; is_open := true; data := []; flushes := O |}.

(** [pufOutput << c] *)
Definition sink_put (c : ascii) (k : Sink) : Sink :=
  if is_open k
  then {| kind := kind k; is_open := true; data := data k ++ [c]; flushes := flushes k |}
  else k.

(** [pufOutput.flush()] *)
Definition sink_flush (k : Sink) : Sink :=
  if is_open k
  then {| kind := kind k; is_open := true; data := data k; flushes := S (flushes k) |}
  else k.

(** [if (auto *o = dynamic_cast<std::ofstream *>(&pufOutput)) o->close();] *)
Definition sink_close (k : Sink) : Sink :=
  match kind k with
  | FileSink => {| kind := FileSink; is_open := false; data := data k; flushes := flushes k |}
  | MemorySink => k
  end.

(** ** Observable effects

    Everything the program does to the outside world other than writing the
    capture is recorded, in program order, in one trace: the diagnostics
    ([log_live], [log_data], [std::cout]), what the injector does on the
    serial line, and the power line.  [Fired] is a history entry: it records
    which branch of the marker chain ran. *)

Inductive Event :=
| Live (c : ascii)            (* log_live *)
| Data (msg : string)         (* log_data with a fixed message *)
| TotalWritten (n : Z)        (* log_data(to_string(charCount) + " bytes in total written.") *)
| Progress (n : Z)            (* std::cout << '\r' << charCount << " bytes written." *)
| Endl                        (* std::cout << std::endl *)
| SleepMs (ms : Z)            (* sleep_for(milliseconds) in the injector *)
| Puts (s : list ascii)       (* serialPuts(fd, s) *)
| SerialFlush                 (* serialFlush(fd) *)
| DigitalWrite (pin : Z) (high : bool)
| SleepSec (sec : Z)          (* sleep_for(seconds) in reset *)
| OpenFile (index : Z)        (* std::ofstream pufOutput(prefix + to_string(count) + ".bin") *)
| Fired (m : Marker).

(** Bytes put on the serial line. *)
Fixpoint tx_bytes (tr : list Event) : list ascii :=
  match tr with
  | [] => []
  | Puts s :: tr' => s ++ tx_bytes tr'
  | _ :: tr' => tx_bytes tr'
  end.

(** Number of times the branch of marker [m] ran. *)
Fixpoint fired_count (m : Marker) (tr : list Event) : nat :=
  match tr with
  | [] => O
  | Fired m' :: tr' => (if Marker_eqb m m' then 1 else 0)%nat + fired_count m tr'
  | _ :: tr' => fired_count m tr'
  end.

(** Number of power cycles ([Runner::reset] calls). *)
Fixpoint reset_count (tr : list Event) : nat :=
  match tr with
  | [] => O
  | DigitalWrite _ true :: tr' => S (reset_count tr')
  | _ :: tr' => reset_count tr'
  end.

(** ** The injector thread

    The body of the lambda of lines 165-180, one program point per
    statement.  A thread is at the parameter [cur], with [rest] still to
    come. *)

Inductive InjPc :=
| PollExpect      (* while (!expectInput) *)
| PollInterrupt   (*   if (interrupt) return; *)
| ClearExpect     (* expectInput = false; *)
| Settle1         (* sleep_for(50ms); *)
| PutsParam       (* toSend = param; serialPuts(fd, toSend.c_str()); *)
| Flush1          (* serialFlush(fd); *)
| Settle2         (* sleep_for(50ms); *)
| PutsCR          (* toSend = "\r"; serialPuts(fd, toSend.c_str()); *)
| Flush2.         (* serialFlush(fd); *)

Inductive Thread :=
| Running (cur : string) (rest : list string) (pc : InjPc)
| Finished.

(** Entering the range-based [for]. *)
Definition for_params (ps : list string) : Thread :=
  match ps with
  | [] => Finished
  | p :: r => Running p r PollExpect
  end.

(** [s.c_str()] as [serialPuts] sees it: the characters before the first
    NUL. *)
Fixpoint c_str (s : string) : list ascii :=
  match s with
  | EmptyString => []
  | String c s' => if Ascii.eqb c zero then [] else c :: c_str s'
  end.

Definition CR : ascii := "013"%char.

(** ** Program state

    The locals of [Runner::loop] ([running] ... [input]; [joining] tells that
    the scanner thread is inside [input->join()] of the given branch), the
    injector threads whose handle was overwritten by a later LOADED
    ([orphans]; they keep running), the [Runner] member [expectInput], the
    two reference parameters [count] and [pufOutput], the bytes the serial
    line will deliver ([stream]) and the trace of effects. *)

Record State := {
  running : bool;
  lastChar : ascii;
  in_ : ascii;
  writePuf : bool;
  interrupt : bool;
  charCount : Z;
  input : option Thread;
  joining : option Marker;
  orphans : list Thread;
  expectInput : bool;
  count : Z;
  pufOutput : Sink;
  stream : list ascii;
  trace : list Event
}.

Definition set_running (v : bool) (s : State) : State :=
  {| running := v; lastChar := lastChar s; in_ := in_ s;
     writePuf := writePuf s; interrupt := interrupt s;
     charCount := charCount s; input := input s; joining := joining s;
     orphans := orphans s; expectInput := expectInput s; count := count s;
     pufOutput := pufOutput s; stream := stream s; trace := trace s |}.

Definition set_lastChar (v : ascii) (s : State) : State :=
  {| running := running s; lastChar := v; in_ := in_ s;
     writePuf := writePuf s; interrupt := interrupt s;
     charCount := charCount s; input := input s; joining := joining s;
     orphans := orphans s; expectInput := expectInput s; count := count s;
     pufOutput := pufOutput s; stream := stream s; trace := trace s |}.

Definition set_in_ (v : ascii) (s : State) : State :=
  {| running := running s; lastChar := lastChar s; in_ := v;
     writePuf := writePuf s; interrupt := interrupt s;
     charCount := charCount s; input := input s; joining := joining s;
     orphans := orphans s; expectInput := expectInput s; count := count s;
     pufOutput := pufOutput s; stream := stream s; trace := trace s |}.

Definition set_writePuf (v : bool) (s : State) : State :=
  {| running := running s; lastChar := lastChar s; in_ := in_ s;
     writePuf := v; interrupt := interrupt s; charCount := charCount s;
     input := input s; joining := joining s; orphans := orphans s;
     expectInput := expectInput s; count := count s;
     pufOutput := pufOutput s; stream := stream s; trace := trace s |}.

Definition set_interrupt (v : bool) (s : State) : State :=
  {| running := running s; lastChar := lastChar s; in_ := in_ s;
     writePuf := writePuf s; interrupt := v; charCount := charCount s;
     input := input s; joining := joining s; orphans := orphans s;
     expectInput := expectInput s; count := count s;
     pufOutput := pufOutput s; stream := stream s; trace := trace s |}.

Definition set_charCount (v : Z) (s : State) : State :=
  {| running := running s; lastChar := lastChar s; in_ := in_ s;
     writePuf := writePuf s; interrupt := interrupt s; charCount := v;
     input := input s; joining := joining s; orphans := orphans s;
     expectInput := expectInput s; count := count s;
     pufOutput := pufOutput s; stream := stream s; trace := trace s |}.

Definition set_input (v : option Thread) (s : State) : State :=
  {| running := running s; lastChar := lastChar s; in_ := in_ s;
     writePuf := writePuf s; interrupt := interrupt s;
     charCount := charCount s; input := v; joining := joining s;
     orphans := orphans s; expectInput := expectInput s; count := count s;
     pufOutput := pufOutput s; stream := stream s; trace := trace s |}.

Definition set_joining (v : option Marker) (s : State) : State :=
  {| running := running s; lastChar := lastChar s; in_ := in_ s;
     writePuf := writePuf s; interrupt := interrupt s;
     charCount := charCount s; input := input s; joining := v;
     orphans := orphans s; expectInput := expectInput s; count := count s;
     pufOutput := pufOutput s; stream := stream s; trace := trace s |}.

Definition set_orphans (v : list Thread) (s : State) : State :=
  {| running := running s; lastChar := lastChar s; in_ := in_ s;
     writePuf := writePuf s; interrupt := interrupt s;
     charCount := charCount s; input := input s; joining := joining s;
     orphans := v; expectInput := expectInput s; count := count s;
     pufOutput := pufOutput s; stream := stream s; trace := trace s |}.

Definition set_expectInput (v : bool) (s : State) : State :=
  {| running := running s; lastChar := lastChar s; in_ := in_ s;
     writePuf := writePuf s; interrupt := interrupt s;
     charCount := charCount s; input := input s; joining := joining s;
     orphans := orphans s; expectInput := v; count := count s;
     pufOutput := pufOutput s; stream := stream s; trace := trace s |}.

Definition set_count (v : Z) (s : State) : State :=
  {| running := running s; lastChar := lastChar s; in_ := in_ s;
     writePuf := writePuf s; interrupt := interrupt s;
     charCount := charCount s; input := input s; joining := joining s;
     orphans := orphans s; expectInput := expectInput s; count := v;
     pufOutput := pufOutput s; stream := stream s; trace := trace s |}.

Definition set_pufOutput (v : Sink) (s : State) : State :=
  {| running := running s; lastChar := lastChar s; in_ := in_ s;
     writePuf := writePuf s; interrupt := interrupt s;
     charCount := charCount s; input := input s; joining := joining s;
     orphans := orphans s; expectInput := expectInput s; count := count s;
     pufOutput := v; stream := stream s; trace := trace s |}.

Definition set_stream (v : list ascii) (s : State) : State :=
  {| running := running s; lastChar := lastChar s; in_ := in_ s;
     writePuf := writePuf s; interrupt := interrupt s;
     charCount := charCount s; input := input s; joining := joining s;
     orphans := orphans s; expectInput := expectInput s; count := count s;
     pufOutput := pufOutput s; stream := v; trace := trace s |}.

Definition set_trace (v : list Event) (s : State) : State :=
  {| running := running s; lastChar := lastChar s; in_ := in_ s;
     writePuf := writePuf s; interrupt := interrupt s;
     charCount := charCount s; input := input s; joining := joining s;
     orphans := orphans s; expectInput := expectInput s; count := count s;
     pufOutput := pufOutput s; stream := stream s; trace := v |}.

Definition emit (e : Event) (s : State) : State :=
  set_trace (trace s ++ [e]) s.

(** ** One step of an injector thread (lines 166-179) *)

Definition inj_step (t : Thread) (s : State) : Thread * State :=
  match t with
  | Finished => (Finished, s)
  | Running p r PollExpect =>
      if expectInput s then (Running p r ClearExpect, s)
      else (Running p r PollInterrupt, s)
  | Running p r PollInterrupt =>
      if interrupt s then (Finished, s) else (Running p r PollExpect, s)
  | Running p r ClearExpect => (Running p r Settle1, set_expectInput false s)
  | Running p r Settle1 => (Running p r PutsParam, emit (SleepMs 50) s)
  | Running p r PutsParam => (Running p r Flush1, emit (Puts (c_str p)) s)
  | Running p r Flush1 => (Running p r Settle2, emit SerialFlush s)
  | Running p r Settle2 => (Running p r PutsCR, emit (SleepMs 50) s)
  | Running p r PutsCR => (Running p r Flush2, emit (Puts [CR]) s)
  | Running p r Flush2 => (for_params r, emit SerialFlush s)
  end.

(** The scheduler lets thread [k] take a step: [0] is the thread [input]
    points to, [S j] the [j]-th orphan. *)
Definition tick (k : nat) (s : State) : State :=
  match k with
  | O =>
      match input s with
      | Some t => let '(t', s') := inj_step t s in set_input (Some t') s'
      | None => s
      end
  | S j =>
      match orphans s !! j with
      | Some t =>
          let '(t', s') := inj_step t s in
          set_orphans (<[j := t']> (orphans s')) s'
      | None => s
      end
  end.

(** ** One step of the scanner thread *)

(** Lines 140-144: what [log_live] shows for a byte outside a capture. *)
Definition shown (c : ascii) : ascii :=
  let n := N_of_ascii c in
  if ((n <? 32) || (126 <? n))%N && negb (n =? 10)%N && negb (n =? 13)%N
  then " "%char else c.

(** Lines 202-212: the deferred write of the previous byte and the byte
    counter. *)
Definition deferred_write (M : Macros) (s : State) : State :=
  let s1 := if writePuf s && (1 <? charCount s)
            then set_pufOutput (sink_put (lastChar s) (pufOutput s)) s
            else s in
  let s2 := set_lastChar (in_ s1) s1 in
  if writePuf s2 then
    let s3 := set_charCount (int_incr (charCount s2)) s2 in
    if Z.rem (charCount s3) (FLUSH_INTERVAL M) =? 0
    then set_pufOutput (sink_flush (pufOutput s3)) (emit (Progress (charCount s3)) s3)
    else s3
  else s2.

(** [input = new std::thread(...)]: the previous handle, if any, is
    overwritten and its thread keeps running. *)
Definition spawn (P : Parser) (s : State) : State :=
  let s1 := match input s with
            | Some t => set_orphans (orphans s ++ [t]) s
            | None => s
            end in
  set_input (Some (for_params (getParams P))) s1.

(** The part of a branch that precedes its [input->join()], or all of it
    when it has none. *)
Definition before_join (P : Parser) (m : Marker) (s : State) : State :=
  match m with
  | START => set_writePuf true s
  | END =>
      let s1 := set_writePuf false (set_count (int_incr (count s)) s) in
      let s2 := emit (TotalWritten (charCount s1)) s1 in
      let s3 := set_pufOutput (sink_close (sink_flush (pufOutput s2))) s2 in
      if (0 <? getMaxMeasures P) && (getMaxMeasures P <=? count s3)
      then set_running false s3 else s3
  | LOADED => spawn P s
  | ASK_INPUT => set_expectInput true s
  | FINISHED => set_interrupt true s
  | PANIC => set_interrupt true s
  end.

Definition has_join (m : Marker) : bool :=
  match m with
  | START | FINISHED | PANIC => true
  | END | LOADED | ASK_INPUT => false
  end.

(** The part of a branch that follows the join. *)
Definition after_join (m : Marker) (s : State) : State :=
  match m with
  | PANIC => set_pufOutput (sink_close (sink_flush (pufOutput s))) s
  | _ => s
  end.

(** The marker chain for the byte just read. *)
Definition branch (M : Macros) (P : Parser) (om : option Marker) (s : State) : State :=
  match om with
  | None => deferred_write M s
  | Some m =>
      let s1 := before_join P m (emit (Fired m) s) in
      if has_join m then
        match input s1 with
        | Some _ => set_joining (Some m) s1
        | None => deferred_write M (after_join m s1)
        end
      else deferred_write M s1
  end.

(** [input->join(); delete input; input = nullptr;] has returned. *)
Definition join_returns (M : Macros) (m : Marker) (s : State) : State :=
  deferred_write M (after_join m (set_joining None (set_input None s))).

(** The scanner thread runs until its next interaction with the injector:
    it either completes a pending join (possible once the thread has
    finished), or takes the next byte and handles it. With no byte
    available [read] blocks; after the loop has ended nothing happens. *)
Definition scan (M : Macros) (P : Parser) (s : State) : State :=
  match joining s with
  | Some m =>
      match input s with
      | Some (Running _ _ _) => s
      | _ => join_returns M m s
      end
  | None =>
      if interrupt s then s
      else
        match stream s with
        | [] => s
        | c :: rest =>
            let s0 := set_in_ c (set_stream rest s) in
            let s1 := if writePuf s0 then s0 else emit (Live (shown c)) s0 in
            branch M P (classify M (lastChar s1) c) s1
        end
  end.

(** ** Interleavings *)

Inductive Sched := Scan | Tick (k : nat).

Definition step (M : Macros) (P : Parser) (a : Sched) (s : State) : State :=
  match a with
  | Scan => scan M P s
  | Tick k => tick k s
  end.

(** [while (!interrupt)] has been left. *)
Definition returned (s : State) : bool :=
  interrupt s && match joining s with None => true | Some _ => false end.

Inductive Outcome :=
| Returned (s : State) (rest : list Sched)   (* [loop] returned [running s] *)
| Pending (s : State).                       (* the schedule ends inside the pass *)

Definition final (o : Outcome) : State :=
  match o with Returned s _ => s | Pending s => s end.

Fixpoint loop_from (M : Macros) (P : Parser) (sch : list Sched) (s : State) : Outcome :=
  if returned s then Returned (emit Endl s) sch
  else
    match sch with
    | [] => Pending s
    | a :: sch' => loop_from M P sch' (step M P a s)
    end.

(** The declarations at the head of [Runner::loop]. *)
Definition enter_loop (s : State) : State :=
  {| running := true; lastChar := " "%char; in_ := " "%char;
     writePuf := false; interrupt := false; charCount := 0;
     input := None; joining := None;
     orphans := orphans s; expectInput := expectInput s; count := count s;
     pufOutput := pufOutput s; stream := stream s; trace := trace s |}.

Definition loop (M : Macros) (P : Parser) (sch : list Sched) (s : State) : Outcome :=
  loop_from M P sch (enter_loop s).

(** ** The drivers *)

(** [Runner::reset] *)
Definition reset (P : Parser) (s : State) : State :=
  emit (DigitalWrite (getUSBPort P) false)
    (emit (Data "Turning on USB Power...")
       (emit (SleepSec (getUSBSleepTime P))
          (emit (DigitalWrite (getUSBPort P) true)
             (emit (Data "Cutting off USB Power...") s)))).

Inductive RunOutcome :=
| Stopped (s : State)      (* the driver loop was left *)
| InPass (s : State)       (* the schedule ends inside a pass *)
| OutOfFuel (s : State).

Definition run_final (o : RunOutcome) : State :=
  match o with Stopped s | InPass s | OutOfFuel s => s end.

(** [SerialReader::run(Parser&)], lines 13-22. *)
Fixpoint run_rounds (M : Macros) (P : Parser) (fuel : nat)
    (sch : list Sched) (s : State) : RunOutcome :=
  match fuel with
  | O => OutOfFuel s
  | S fuel' =>
      let s1 := set_pufOutput (new_sink FileSink) (emit (OpenFile (count s)) s) in
      match loop M P sch (reset P s1) with
      | Returned s2 rest =>
          if running s2 then run_rounds M P fuel' rest s2 else Stopped s2
      | Pending s2 => InPass s2
      end
  end.

(** [SerialReader::run(Parser&, std::ostream&)], lines 73-81. *)
Fixpoint run_single_rounds (M : Macros) (P : Parser) (fuel : nat)
    (sch : list Sched) (s : State) : RunOutcome :=
  match fuel with
  | O => OutOfFuel s
  | S fuel' =>
      match loop M P sch (reset P s) with
      | Returned s2 rest =>
          if running s2 && (count s2 =? 0)
          then run_single_rounds M P fuel' rest s2 else Stopped s2
      | Pending s2 => InPass s2
      end
  end.

(** The state after the declarations of a driver: [count = 0], no thread,
    nothing done yet.  [e] is the value the [Runner] member [expectInput]
    starts with, [k] the sink ([run(Parser&)] replaces it by the file of the
    round), [rx] what the serial line delivers. *)
Definition session_start (e : bool) (k : Sink) (rx : list ascii) : State :=
  {| running := true; lastChar := " "%char; in_ := " "%char;
     writePuf := false; interrupt := false; charCount := 0;
     input := None; joining := None;
     orphans := []; expectInput := e; count := 0;
     pufOutput := k; stream := rx; trace := [] |}.

(** Every pass that returns has consumed a schedule entry, so as many
    rounds as the schedule is long, plus one, are enough fuel. *)
Definition run (M : Macros) (P : Parser) (sch : list Sched) (s : State) : RunOutcome :=
  run_rounds M P (S (length sch)) sch s.

Definition run_single (M : Macros) (P : Parser) (sch : list Sched) (s : State) : RunOutcome :=
  run_single_rounds M P (S (length sch)) sch s.

(** ** gen_key: the bit selection (lines 41-68) *)

Module KeyExtractor.

(** The loop variables.  [pos_file] holds the integers the position file
    still has to deliver; [result] is the array [new char[key_size]], a cell
    being [None] until it is assigned. *)
Record Vars := {
  nextBit : Z;
  pos_file : list Z;
  count : Z;
  index : Z;
  commaFound : bool;
  nextLine : bool;
  result : list (option ascii)
}.

(** How the selection ends.  [Key] is [return result;] reached with every
    access inside its object.  The other outcomes are the points where the
    run leaves what the source defines, with the variables of that moment:
    what the program does from there on is not determined by the source (a
    build at hand typically goes on with stray bytes and may still return
    an array). *)
Inductive Result :=
| Key (result : list (option ascii))   (* [return result;], all accesses in bounds *)
| WriteOverrun (v : Vars)              (* [result[index]] outside the array *)
| ReadOverrun (v : Vars)               (* [in] past the terminator, the loop goes on *)
| BadArrayLength.                      (* [new char[key_size]], [key_size < 0] *)

(** The character [(( *in >> shift) & 1) + 48] ([48] is the digit zero).
    For [shift] from 0 to 7 the result is bit [shift] of the byte, whether
    [char] is signed or not. *)
Definition bit_char (c : ascii) (shift : Z) : ascii :=
  ascii_of_N (Z.to_N (Z.land (Z.shiftr (Z.of_N (N_of_ascii c)) shift) 1 + 48)).

(** Lines 53-58 for one bit; [inr] when the assignment falls outside
    [result]. *)
Definition select (c : ascii) (shift : Z) (v : Vars) : Vars + Vars :=
  if count v =? nextBit v then
    if (0 <=? index v) && (index v <? Z.of_nat (length (result v))) then
      let r := <[Z.to_nat (index v) := Some (bit_char c shift)]> (result v) in
      match pos_file v with
      | p :: f =>
          inl {| nextBit := p; pos_file := f; count := count v;
                 index := int_incr (index v); commaFound := commaFound v;
                 nextLine := true; result := r |}
      | [] =>
          inl {| nextBit := nextBit v; pos_file := []; count := count v;
                 index := int_incr (index v); commaFound := commaFound v;
                 nextLine := false; result := r |}
      end
    else inr v
  else inl v.

Definition count_incr (v : Vars) : Vars :=
  {| nextBit := nextBit v; pos_file := pos_file v; count := int_incr (count v);
     index := index v; commaFound := commaFound v;
     nextLine := nextLine v; result := result v |}.

(** [for (int shift = 7; shift >= 0 && nextLine; shift--)], entered with
    [shift = n - 1]. *)
Fixpoint for_shift (n : nat) (c : ascii) (v : Vars) : Vars + Vars :=
  match n with
  | O => inl v
  | S n' =>
      if nextLine v then
        match select c (Z.of_nat n') v with
        | inl v' => for_shift n' c (count_incr v')
        | inr v' => inr v'
        end
      else inl v
  end.

Definition comma : ascii := ","%char.

Definition set_commaFound (v : Vars) : Vars :=
  {| nextBit := nextBit v; pos_file := pos_file v; count := count v;
     index := index v; commaFound := true;
     nextLine := nextLine v; result := result v |}.

(** [while (nextLine)], with [in] pointing at the head of [mem].  With
    [mem] exhausted [in] is one past the terminator.  If the loop goes on
    from there the run is ended with [ReadOverrun] and the variables at the
    start of that round: before the comma is found the round reads [*in] at
    once; behind the comma it reads [*in] when [count] reaches [nextBit]
    and otherwise only moves [in] further beyond the string. *)
Fixpoint while_nextLine (mem : list ascii) (v : Vars) : Result :=
  if nextLine v then
    match mem with
    | [] => ReadOverrun v
    | c :: mem' =>
        if commaFound v then
          match for_shift 8 c v with
          | inl v' => while_nextLine mem' v'
          | inr v' => WriteOverrun v'
          end
        else
          while_nextLine mem'
            (if Ascii.eqb c comma then set_commaFound v else v)
    end
  else Key (result v).

(** Lines 41-49.  [positions] are the integers the position file
    delivers.  The empty list stands for a file whose first token is not a
    number: that extraction fails and leaves [0] in [nextBit].  (A file
    that is empty, blank or missing leaves [nextBit] uninitialised; the
    selection is then not determined by the source, and the statements
    about the selection below either assume a non-empty list or do not
    depend on [nextBit].) *)
Definition init (positions : list Z) (key_size : Z) : Vars :=
  {| nextBit := match positions with p :: _ => p | [] => 0 end;
     pos_file := match positions with _ :: f => f | [] => [] end;
     count := 0; index := 0; commaFound := false; nextLine := true;
     result := replicate (Z.to_nat key_size) None |}.

(** The readable memory behind [out_str.c_str()]: the characters of the
    string and the terminating NUL. *)
Definition c_str_mem (out_str : list ascii) : list ascii := out_str ++ [zero].

Definition extract_key (out_str : list ascii) (positions : list Z) (key_size : Z) : Result :=
  if key_size <? 0 then BadArrayLength
  else while_nextLine (c_str_mem out_str) (init positions key_size).

(** *** What the selection is meant to deliver *)

(** The character for bit [p] of [body], bits counted from the most
    significant bit of the first byte. *)
Definition bit_at (body : list ascii) (p : Z) : ascii :=
  bit_char (nth (Z.to_nat (p / 8)) body zero) (7 - p mod 8).

(** [l] is strictly increasing and starts at [lo] or above. *)
Fixpoint increasing_from (lo : Z) (l : list Z) : Prop :=
  match l with
  | [] => True
  | p :: l' => lo <= p /\ increasing_from (p + 1) l'
  end.

(** The loop invariant: the selection is not finished, the pending
    positions [nextBit :: pos_file] are increasing, not yet passed and
    inside the memory [B] behind the comma, they fit what is left of
    [result], and filling them in gives [E]. *)
Definition selecting (B : list ascii) (E : list (option ascii)) (v : Vars) : Prop :=
  nextLine v = true /\ commaFound v = true /\
  increasing_from (count v) (nextBit v :: pos_file v) /\
  Forall (fun p => p < 8 * Z.of_nat (length B)) (nextBit v :: pos_file v) /\
  0 <= index v /\
  index v + Z.of_nat (length (nextBit v :: pos_file v)) = Z.of_nat (length (result v)) /\
  Z.of_nat (length (result v)) <= INT_MAX /\
  take (Z.to_nat (index v)) (result v)
    ++ map (fun p => Some (bit_at B p)) (nextBit v :: pos_file v) = E.

(** The selection is finished and has delivered [E]. *)
Definition selected (E : list (option ascii)) (v : Vars) : Prop :=
  nextLine v = false /\ result v = E.

(** The capture of the example: two filler bytes, a comma, 0x41, 0x00. *)
Definition example_capture : list ascii := ["x"; "x"; ","; "065"; "000"]%char.

End KeyExtractor.

(** [gen_key]: one single-shot session into a string stream, then the bit
    selection over what it captured.  [P] is the [Parser] the function
    builds from its arguments. *)
Definition gen_key (M : Macros) (P : Parser) (e : bool) (rx : list ascii)
    (sch : list Sched) (positions : list Z) (key_size : Z)
  : option KeyExtractor.Result :=
  match run_single M P sch (session_start e (new_sink MemorySink) rx) with
  | Stopped s => Some (KeyExtractor.extract_key (data (pufOutput s)) positions key_size)
  | InPass _ | OutOfFuel _ => None
  end.

(** ** The two drivers as one loop

    Both [run] overloads are [while (again) { begin; running = loop(...) }];
    they differ in how a round begins and in the loop guard.  [rounds] is
    that common shape; [rounds_run] and [rounds_run_single] below show that
    it is the two drivers. *)

Inductive Mode := MultiRound | SingleShot.

Definition begin_round (d : Mode) (P : Parser) (s : State) : State :=
  match d with
  | MultiRound =>
      reset P (set_pufOutput (new_sink FileSink) (emit (OpenFile (count s)) s))
  | SingleShot => reset P s
  end.

Definition again (d : Mode) (s : State) : bool :=
  match d with
  | MultiRound => running s
  | SingleShot => running s && (count s =? 0)
  end.

Fixpoint rounds (d : Mode) (M : Macros) (P : Parser) (fuel : nat)
    (sch : list Sched) (s : State) : RunOutcome :=
  match fuel with
  | O => OutOfFuel s
  | S fuel' =>
      match loop M P sch (begin_round d P s) with
      | Returned s2 rest =>
          if again d s2 then rounds d M P fuel' rest s2 else Stopped s2
      | Pending s2 => InPass s2
      end
  end.

Definition session (d : Mode) (M : Macros) (P : Parser) (sch : list Sched) (s : State)
  : RunOutcome :=
  match d with
  | MultiRound => run M P sch s
  | SingleShot => run_single M P sch s
  end.

(** ** Quantities read off a state *)

(** END events so far. *)
Definition ends (s : State) : nat := fired_count END (trace s).

(** Passes that were left: each pass ends with one FINISHED or PANIC. *)
Definition passes_left (s : State) : nat :=
  (fired_count FINISHED (trace s) + fired_count PANIC (trace s))%nat.

(** [n] steps of thread [k] in a row. *)
Definition ticks (n k : nat) (s : State) : State := Nat.iter n (tick k) s.

(** ** Concrete instances used in examples *)

Definition example_macros : Macros :=
  {| START_1 := "240"%char;     START_2 := "241"%char;
     END_1 := "242"%char;       END_2 := "243"%char;
     LOADED_1 := "244"%char;    LOADED_2 := "245"%char;
     ASK_INPUT_1 := "246"%char; ASK_INPUT_2 := "247"%char;
     FINISHED_1 := "248"%char;  FINISHED_2 := "249"%char;
     PANIC_1 := "250"%char;     PANIC_2 := "251"%char;
     FLUSH_INTERVAL := 1000 |}.

Definition example_parser (max : Z) : Parser :=
  {| getMaxMeasures := max; getParams := ["ab"%string];
     getUSBPort := 7; getUSBSleepTime := 1 |}.

(** START, the payload, END. *)
Definition framed (M : Macros) (payload : list ascii) : list ascii :=
  [START_1 M; START_2 M] ++ payload ++ [END_1 M; END_2 M].

(** A PANIC, then two captures. *)
Definition panic_then_two_captures : State :=
  session_start false (new_sink FileSink)
    ([PANIC_1 example_macros; PANIC_2 example_macros]
       ++ framed example_macros ["A"%char]
       ++ framed example_macros ["B"%char]).

(** ** Invariants

    As long as [c0] plus the END events since [e0] fits an [int], that is
    the value of the round counter. *)
Definition counter_tracks_ends (c0 : Z) (e0 : nat) (s : State) : Prop :=
  (e0 <= ends s)%nat /\
  (c0 + Z.of_nat (ends s - e0) <= INT_MAX -> count s = c0 + Z.of_nat (ends s - e0)).

(** With a maximum of [max] rounds: [running] is true exactly as long as
    fewer than [max] END events have happened, and until then the round
    counter is their number. *)
Definition running_until_max (max : Z) (s : State) : Prop :=
  (running s = true -> count s = Z.of_nat (ends s) /\ Z.of_nat (ends s) < max) /\
  (running s = false -> max <= Z.of_nat (ends s)).

Definition below_max (max : Z) (s : State) : Prop :=
  count s = Z.of_nat (ends s) /\ Z.of_nat (ends s) < max.

(** Until the first END event the round counter is 0 and [running] holds. *)
Definition fresh_until_END (s : State) : Prop :=
  ends s = O -> count s = 0 /\ running s = true.

(** One power cycle per pass: the passes that were left, and the one that
    is running. *)
Definition pass_open (s : State) : nat := if interrupt s then 0 else 1.

Definition one_reset_per_pass (s : State) : Prop :=
  reset_count (trace s) = (passes_left s + pass_open s)%nat.

(** Three captures in a row, then a fourth one, with no FINISHED or PANIC
    in between. *)
Definition four_captures : State :=
  session_start false (new_sink FileSink)
    (framed example_macros ["A"%char] ++ framed example_macros ["B"%char]
       ++ framed example_macros ["C"%char] ++ framed example_macros ["D"%char]).

(** A PANIC before anything was captured, then one capture and FINISHED. *)
Definition panic_then_capture_rx : list ascii :=
  [PANIC_1 example_macros; PANIC_2 example_macros]
    ++ framed example_macros ["A"%char]
    ++ [FINISHED_1 example_macros; FINISHED_2 example_macros].

(** Rounds begun after an END event: the power cycles of [tr] that come
    after an END, [seen] telling whether one came before [tr]. *)
Fixpoint rounds_after_END (seen : bool) (tr : list Event) : nat :=
  match tr with
  | [] => O
  | Fired END :: tr' => rounds_after_END true tr'
  | DigitalWrite _ true :: tr' =>
      ((if seen then 1 else 0) + rounds_after_END seen tr')%nat
  | _ :: tr' => rounds_after_END seen tr'
  end.

(** As long as the END events fit an [int], the round counter is their
    number and no round was begun after an END. *)
Definition stops_at_END (s : State) : Prop :=
  counter_tracks_ends 0 0 s /\
  (Z.of_nat (ends s) <= INT_MAX -> rounds_after_END false (trace s) = O).

(** A PANIC, a capture and FINISHED, and a second capture on the line. *)
Definition panic_capture_more_rx : list ascii :=
  panic_then_capture_rx ++ framed example_macros ["B"%char].

(** Sentinels that overlap: the second START byte is the first END byte. *)
Definition overlapping_macros : Macros :=
  {| START_1 := "S"; START_2 := "T"; END_1 := "T"; END_2 := "U";
     LOADED_1 := "1"; LOADED_2 := "2"; ASK_INPUT_1 := "3"; ASK_INPUT_2 := "4";
     FINISHED_1 := "5"; FINISHED_2 := "6"; PANIC_1 := "7"; PANIC_2 := "8";
     FLUSH_INTERVAL := 1000 |}%char.

(** ** The framing rule

    What the framing rule looks at: no join pending, the pass not
    interrupted, no injector to join, and the values of [lastChar],
    [writePuf], [charCount], of the sink (its flush count apart) and the
    bytes still to come. *)
Definition framing (s : State) (lc : ascii) (wp : bool) (cc : Z)
    (k : Sink) (rest : list ascii) : Prop :=
  joining s = None /\ interrupt s = false /\ input s = None /\
  stream s = rest /\ lastChar s = lc /\ writePuf s = wp /\ charCount s = cc /\
  kind (pufOutput s) = kind k /\ is_open (pufOutput s) = is_open k /\
  data (pufOutput s) = data k.

(** No two neighbours in [prev :: l] form a marker. *)
Fixpoint quiet (M : Macros) (prev : ascii) (l : list ascii) : Prop :=
  match l with
  | [] => True
  | c :: l' => classify M prev c = None /\ quiet M c l'
  end.

(** [pufOutput << c] for the characters of [l] in turn. *)
Definition sink_puts (l : list ascii) (k : Sink) : Sink :=
  fold_left (fun k c => sink_put c k) l k.

(** A capture, then a second START and two more bytes, in one pass. *)
Definition second_capture_rx : list ascii :=
  framed example_macros ["A"; "B"]%char
    ++ [START_1 example_macros; START_2 example_macros; "C"; "D"]%char.

(** [n] steps of one injector thread in a row. *)
Fixpoint inj_steps (n : nat) (t : Thread) (s : State) : Thread * State :=
  match n with
  | O => (t, s)
  | S n' => let '(t', s') := inj_step t s in inj_steps n' t' s'
  end.

(** No LOADED event since there were [l0] of them: no injector exists and
    the may-send signal is still set. *)
Definition signal_kept (l0 : nat) (s : State) : Prop :=
  (l0 <= fired_count LOADED (trace s))%nat /\
  (fired_count LOADED (trace s) = l0 ->
   input s = None /\ orphans s = [] /\ expectInput s = true).

(** A state with the may-send signal set and nothing else going on. *)
Definition signal_raised : State :=
  set_expectInput true (session_start false (new_sink MemorySink) []).

(** The DUT asks for input before it reports LOADED. *)
Definition ask_then_loaded_rx : list ascii :=
  [ASK_INPUT_1 example_macros; ASK_INPUT_2 example_macros;
   LOADED_1 example_macros; LOADED_2 example_macros].

(** ** Further invariants and states of the session engine *)

(** The pass goes on for ever. *)
Definition never_stops (o : RunOutcome) : Prop :=
  match o with Stopped _ => False | InPass _ | OutOfFuel _ => True end.

(** The scanner thread is inside [input->join()] and the thread it waits
    for is polling: neither the may-send signal nor the cancellation is
    set, and there is no other injector. *)
Definition join_deadlock (s : State) : Prop :=
  (exists m, joining s = Some m) /\ interrupt s = false /\
  expectInput s = false /\ orphans s = [] /\
  exists p r, input s = Some (Running p r PollExpect) \/
              input s = Some (Running p r PollInterrupt).

(** LOADED and then START, with no ASK_INPUT in between. *)
Definition loaded_then_start_rx : list ascii :=
  [LOADED_1 example_macros; LOADED_2 example_macros;
   START_1 example_macros; START_2 example_macros; "A"%char].

(** What [log_live] may show: a printable character, a line feed or a
    carriage return. *)
Definition printable (c : ascii) : bool :=
  let n := N_of_ascii c in
  (((32 <=? n) && (n <=? 126)) || (n =? 10) || (n =? 13))%N.

Definition log_clean (tr : list Event) : Prop :=
  Forall (fun e => match e with Live c => printable c = true | _ => True end) tr.

(** The level of the power line after the events of [tr], [lvl] before
    them; high cuts the power. *)
Fixpoint line_high (lvl : bool) (tr : list Event) : bool :=
  match tr with
  | [] => lvl
  | DigitalWrite _ h :: tr' => line_high h tr'
  | _ :: tr' => line_high lvl tr'
  end.


(** Calls of [serialPuts]. *)
Fixpoint puts_count (tr : list Event) : nat :=
  match tr with
  | [] => O
  | Puts _ :: tr' => S (puts_count tr')
  | _ :: tr' => puts_count tr'
  end.

(** The calls of [serialPuts] an injector has still to make for the signal
    it has consumed. *)
Definition pending (o : option Thread) : nat :=
  match o with
  | Some (Running _ _ pc) =>
      match pc with
      | Settle1 | PutsParam => 2
      | Flush1 | Settle2 | PutsCR => 1
      | PollExpect | PollInterrupt | ClearExpect | Flush2 => 0
      end
  | _ => O
  end.

(** The calls a set may-send signal allows. *)
Definition credit (e : bool) : nat := if e then 2 else 0.

(** An injector that has left its polling loop has seen the signal, and
    nobody else clears it. *)
Definition signal_seen (o : option Thread) (e : bool) : Prop :=
  match o with
  | Some (Running _ _ ClearExpect) => e = true
  | _ => True
  end.

(** As long as no injector was orphaned, what was sent and what may still
    be sent is covered by the ASK_INPUT markers since there were [a0] of
    them, on top of the budget [b0]. *)
Definition handshake_bound (a0 b0 : nat) (s : State) : Prop :=
  orphans s = [] ->
  signal_seen (input s) (expectInput s) /\
  (puts_count (trace s) + pending (input s) + credit (expectInput s) + 2 * a0
   <= 2 * fired_count ASK_INPUT (trace s) + b0)%nat.

(** LOADED twice, then one ASK_INPUT. *)
Definition loaded_twice_rx : list ascii :=
  [LOADED_1 example_macros; LOADED_2 example_macros;
   LOADED_1 example_macros; LOADED_2 example_macros;
   ASK_INPUT_1 example_macros; ASK_INPUT_2 example_macros].

(** ** The bit selection on arbitrary input *)

Module KeySelection.
Import KeyExtractor.

(** The positions the loop has still to find. *)
Definition pending_positions (v : Vars) : list Z :=
  if nextLine v then nextBit v :: pos_file v else [].

(** What the loop has done so far, over the memory [B] behind the comma,
    the position list [ps] and an array of [K] cells: the positions [done]
    were found, each at the moment the bit counter had its value, and their
    bits fill the first cells of the array in order. *)
Definition progress (B : list ascii) (ps : list Z) (K : nat) (v : Vars) : Prop :=
  exists done,
    done ++ pending_positions v = ps /\
    commaFound v = true /\
    index v = Z.of_nat (length done) /\
    increasing_from 0 done /\
    Forall (fun p => p < count v) done /\
    Z.of_nat (length done) <= count v <= 8 * Z.of_nat (length B) /\
    (length done <= K)%nat /\
    result v = map (fun p => Some (bit_at B p)) done ++ replicate (K - length done) None.

End KeySelection.

(* ================================================================== *)
(** * sdram.c: the self test

    The self test of the SDRAM bring-up (lines 446-500).  The registers of
    the controller and the clock manager are not modelled. *)

Module Sdram.

(** The enumerators of [enum RamSize] that sdram.c uses. *)
Inductive RamSize :=
| kRamSize1GB | kRamSize512MB | kRamSize256MB | kRamSize128MB | kRamSizeUnknown.

Definition RamSize_eqb (a b : RamSize) : bool :=
  match a, b with
  | kRamSize1GB, kRamSize1GB | kRamSize512MB, kRamSize512MB
  | kRamSize256MB, kRamSize256MB | kRamSize128MB, kRamSize128MB
  | kRamSizeUnknown, kRamSizeUnknown => true
  | _, _ => false
  end.

Definition RT_BASE : Z := 0xC0000000.
Definition RT_PAT0 : Z := 0xAAAAAAAA.
Definition RT_PAT1 : Z := 0xFF00AA00.
Definition RT_PAT2 : Z := 0x99999999.

(** The memory: the 32-bit word at each byte address. *)
Definition Ram := Z -> Z.

(** What the test does to the memory and how it ends: [Failed i] is the
    [panic] of [RT_ASSERT] at index [i]. *)
Inductive Verdict := Passed | Failed (i : Z).

Section SelfTest.

(** The cells of the device: [keeps a v] is what the word at address [a]
    holds after [v] was written to it; [v] itself when the cell is sound. *)
Variable keeps : Z -> Z -> Z.

(** [ram[i] = v] and [ram[i]] for [ram = (volatile uint32_t * ) addr]. *)
Definition ram_set (addr i v : Z) (m : Ram) : Ram :=
  fun x => if x =? addr + 4 * i then keeps x v else m x.

Definition ram_get (addr i : Z) (m : Ram) : Z := m (addr + 4 * i).

(** The first loop (lines 466-471), entered with the value [i]; [fuel]
    bounds the number of rounds. *)
Fixpoint write_loop (fuel : nat) (addr i : Z) (m : Ram) : option Ram :=
  if i <? 0x1000 then
    match fuel with
    | O => None
    | S fuel' =>
        let m0 := ram_set addr i RT_PAT0 m in
        let m1 := ram_set addr (i + 1) RT_PAT1 m0 in
        let m2 := ram_set addr (i + 2) RT_PAT2 m1 in
        let m3 := ram_set addr (i + 3) RT_PAT0 m2 in
        write_loop fuel' addr (i + 4) m3
    end
  else Some m.

(** The second loop (lines 473-478): four [RT_ASSERT] per round. *)
Fixpoint check_loop (fuel : nat) (addr i : Z) (m : Ram) : option Verdict :=
  if i <? 0x1000 then
    match fuel with
    | O => None
    | S fuel' =>
        if negb (ram_get addr i m =? RT_PAT0) then Some (Failed i)
        else if negb (ram_get addr (i + 1) m =? RT_PAT1) then Some (Failed (i + 1))
        else if negb (ram_get addr (i + 2) m =? RT_PAT2) then Some (Failed (i + 2))
        else if negb (ram_get addr (i + 3) m =? RT_PAT0) then Some (Failed (i + 3))
        else check_loop fuel' addr (i + 4) m
    end
  else Some Passed.

(** [selftest_at]; 0x400 rounds are what the loops need. *)
Definition selftest_at (addr : Z) (m : Ram) : option (Ram * Verdict) :=
  match write_loop 0x400 addr 0 m with
  | Some m' =>
      match check_loop 0x400 addr 0 m' with
      | Some v => Some (m', v)
      | None => None
      end
  | None => None
  end.

End SelfTest.

(** The pattern the test expects at index [i]. *)
Definition pattern (i : Z) : Z :=
  if i mod 4 =? 1 then RT_PAT1 else if i mod 4 =? 2 then RT_PAT2 else RT_PAT0.

(** The regions [selftest] hands to [selftest_at], in order (lines
    485-496); the additions are those of [uint32_t]. *)
Definition selftest_regions (g_RAMSize : RamSize) : list Z :=
  [RT_BASE]
    ++ (if RamSize_eqb g_RAMSize kRamSize256MB || RamSize_eqb g_RAMSize kRamSize512MB
           || RamSize_eqb g_RAMSize kRamSize1GB
        then [(RT_BASE + 0xFF00000) mod 2 ^ 32] else [])
    ++ (if RamSize_eqb g_RAMSize kRamSize256MB || RamSize_eqb g_RAMSize kRamSize1GB
        then [(RT_BASE + 0x1FF00000) mod 2 ^ 32] else [])
    ++ (if RamSize_eqb g_RAMSize kRamSize1GB
        then [(RT_BASE + 0x2FF00000) mod 2 ^ 32; (RT_BASE + 0x3FF00000) mod 2 ^ 32]
        else []).

(** [selftest]: the regions in turn, up to the first [panic]. *)
Fixpoint selftest_over (keeps : Z -> Z -> Z) (regions : list Z) (m : Ram)
  : option (Ram * Verdict * option Z) :=
  match regions with
  | [] => Some (m, Passed, None)
  | addr :: regions' =>
      match selftest_at keeps addr m with
      | Some (m', Passed) => selftest_over keeps regions' m'
      | Some (m', Failed i) => Some (m', Failed i, Some addr)
      | None => None
      end
  end.

Definition selftest (keeps : Z -> Z -> Z) (g_RAMSize : RamSize) (m : Ram)
  : option (Ram * Verdict * option Z) :=
  selftest_over keeps (selftest_regions g_RAMSize) m.

(** The bytes of a memory of the given size. *)
Definition ram_bytes (sz : RamSize) : option Z :=
  match sz with
  | kRamSize1GB => Some (2 ^ 30)
  | kRamSize512MB => Some (2 ^ 29)
  | kRamSize256MB => Some (2 ^ 28)
  | kRamSize128MB => Some (2 ^ 27)
  | kRamSizeUnknown => None
  end.

End Sdram.

(* ================================================================== *)
(** * Basic facts *)

Lemma int_incr_small x : x < INT_MAX -> int_incr x = x + 1.
Proof.
  intros H. unfold int_incr. destruct (Z.eqb_spec x INT_MAX); lia.
Qed.

Lemma Marker_eqb_spec a b : reflect (a = b) (Marker_eqb a b).
Proof. destruct a, b; constructor; congruence. Qed.

Lemma fired_count_app m tr1 tr2 :
  fired_count m (tr1 ++ tr2) = (fired_count m tr1 + fired_count m tr2)%nat.
Proof.
  induction tr1 as [|e tr1 IH]; simpl; [reflexivity|].
  destruct e; try assumption. rewrite IH. lia.
Qed.

Lemma reset_count_app tr1 tr2 :
  reset_count (tr1 ++ tr2) = (reset_count tr1 + reset_count tr2)%nat.
Proof.
  induction tr1 as [|e tr1 IH]; simpl; [reflexivity|].
  destruct e; try assumption. destruct high; simpl; auto.
Qed.

Lemma tx_bytes_app tr1 tr2 : tx_bytes (tr1 ++ tr2) = tx_bytes tr1 ++ tx_bytes tr2.
Proof.
  induction tr1 as [|e tr1 IH]; simpl; [reflexivity|].
  destruct e; try assumption. rewrite IH. apply app_assoc.
Qed.

Lemma classify_START M : classify M (START_1 M) (START_2 M) = Some START.
Proof. unfold classify. now rewrite !Ascii.eqb_refl. Qed.

(** Case analysis on the next test of the program text in the goal. *)
Ltac break_if :=
  match goal with
  | |- context [if ?b then _ else _] => destruct b eqn:?
  | |- context [match ?x with _ => _ end] => destruct x eqn:?
  end.

(** ** The drivers are [rounds] *)

Lemma rounds_run M P fuel sch s :
  rounds MultiRound M P fuel sch s = run_rounds M P fuel sch s.
Proof.
  revert sch s. induction fuel as [|fuel IH]; intros sch s; simpl; [reflexivity|].
  destruct (loop M P sch _) as [s2 rest|s2]; [|reflexivity].
  destruct (running s2); [apply IH | reflexivity].
Qed.

Lemma rounds_run_single M P fuel sch s :
  rounds SingleShot M P fuel sch s = run_single_rounds M P fuel sch s.
Proof.
  revert sch s. induction fuel as [|fuel IH]; intros sch s; simpl; [reflexivity|].
  destruct (loop M P sch _) as [s2 rest|s2]; [|reflexivity].
  destruct (running s2 && (count s2 =? 0)); [apply IH | reflexivity].
Qed.

Lemma session_rounds d M P sch s :
  session d M P sch s = rounds d M P (S (length sch)) sch s.
Proof.
  destruct d; unfold session, run, run_single;
    [rewrite rounds_run | rewrite rounds_run_single]; reflexivity.
Qed.

(** ** A pass that returns has consumed part of the schedule *)

Lemma loop_from_rest M P sch s s' rest :
  loop_from M P sch s = Returned s' rest -> (length rest <= length sch)%nat.
Proof.
  revert s. induction sch as [|a sch IH]; intros s; simpl.
  - destruct (returned s); [|discriminate]. intros [= _ <-]. simpl. lia.
  - destruct (returned s).
    + intros [= _ <-]. simpl. lia.
    + intros H. apply IH in H. lia.
Qed.

Lemma loop_rest M P sch s s' rest :
  loop M P sch s = Returned s' rest -> (length rest < length sch)%nat.
Proof.
  unfold loop. destruct sch as [|a sch]; simpl; [discriminate|].
  intros H. apply loop_from_rest in H. lia.
Qed.

(** ** Invariants of a session

    A property [Inv] of the states inside a pass, with the property [Start]
    it needs between two rounds. *)

Section SessionInvariant.
Variables (d : Mode) (M : Macros) (P : Parser).
Variables (Start Inv : State -> Prop).
Hypothesis begin_ok : forall s, Start s -> Inv (enter_loop (begin_round d P s)).
Hypothesis step_ok : forall a s, Inv s -> Inv (step M P a s).
Hypothesis return_ok : forall s, Inv s -> interrupt s = true -> Inv (emit Endl s).
Hypothesis again_ok :
  forall s, Inv s -> interrupt s = true -> again d s = true -> Start s.

Lemma loop_from_inv sch s :
  Inv s ->
  match loop_from M P sch s with
  | Returned s' _ => Inv s' /\ interrupt s' = true
  | Pending s' => Inv s'
  end.
Proof using step_ok return_ok.
  revert s. induction sch as [|a sch IH]; intros s HI; simpl.
  - destruct (returned s) eqn:R; [|exact HI].
    apply andb_true_iff in R as [R _]. split; [apply return_ok; assumption | exact R].
  - destruct (returned s) eqn:R.
    + apply andb_true_iff in R as [R _]. split; [apply return_ok; assumption | exact R].
    + apply IH, step_ok, HI.
Qed.

Lemma rounds_inv fuel sch s :
  Start s -> (length sch < fuel)%nat ->
  match rounds d M P fuel sch s with
  | Stopped s' => Inv s' /\ interrupt s' = true /\ again d s' = false
  | InPass s' => Inv s'
  | OutOfFuel _ => False
  end.
Proof using All.
  revert sch s. induction fuel as [|fuel IH]; intros sch s HS Hlen; [lia|].
  simpl. pose proof (loop_from_inv sch _ (begin_ok s HS)) as HL.
  pose proof (loop_rest M P sch (begin_round d P s)) as HR.
  unfold loop in *. destruct (loop_from M P sch _) as [s2 rest|s2]; [|exact HL].
  destruct HL as [HI Hint]. specialize (HR s2 rest eq_refl).
  destruct (again d s2) eqn:A.
  - apply IH; [apply again_ok; assumption | lia].
  - auto.
Qed.

Lemma session_inv sch s :
  Start s ->
  match session d M P sch s with
  | Stopped s' => Inv s' /\ interrupt s' = true /\ again d s' = false
  | InPass s' => Inv s'
  | OutOfFuel _ => False
  end.
Proof using All.
  intros HS. rewrite session_rounds. apply rounds_inv; [exact HS | lia].
Qed.
End SessionInvariant.

(* ================================================================== *)
(** * Case analysis of one step

    The state is split into its fields and the program text is opened one
    layer at a time: [scan], then the marker chain, then the branch bodies,
    then the deferred write. *)

Ltac split_tests := repeat (break_if; cbn in *; try discriminate).

Ltac count_events :=
  rewrite ?fired_count_app, ?reset_count_app, ?tx_bytes_app; cbn.

Ltac scan_cases :=
  unfold scan; cbn; split_tests;
  unfold join_returns, branch; cbn; split_tests;
  unfold before_join, after_join, spawn; cbn; split_tests;
  unfold deferred_write; cbn; split_tests.

Ltac tick_cases :=
  unfold tick; cbn; split_tests;
  repeat match goal with
         | H : inj_step ?t _ = _ |- _ =>
             unfold inj_step in H; cbn in H;
             repeat match type of H with
                    | context [match ?x with _ => _ end] => destruct x eqn:?; cbn in H
                    end;
             injection H as <- <-
         end; cbn.

Ltac step_cases a s :=
  destruct s as [rn lc i wp ir cc inp jn orp ex cnt po st tr];
  destruct a as [|k]; cbn [step]; [scan_cases | tick_cases].

(** Events other than [Fired] and the declarations of a pass leave the
    counters alone. *)
Lemma begin_round_counters d P s :
  count (enter_loop (begin_round d P s)) = count s /\
  (forall m, fired_count m (trace (enter_loop (begin_round d P s))) = fired_count m (trace s)).
Proof.
  destruct d; cbn; split; try reflexivity; intros m; count_events; lia.
Qed.

(* ================================================================== *)
(** * The round counter (C5) *)

(** One step either leaves the round counter and the number of END events
    alone, or it is the END branch: the counter is incremented, one END event
    is recorded and no PANIC event. *)
Lemma step_round_counter M P a s :
  let s' := step M P a s in
  (count s' = count s /\ ends s' = ends s) \/
  (count s' = int_incr (count s) /\ ends s' = S (ends s) /\
   fired_count PANIC (trace s') = fired_count PANIC (trace s)).
Proof.
  unfold ends. step_cases a s; count_events;
    solve [ left; split; (reflexivity || lia)
          | right; repeat split; (reflexivity || lia) ].
Qed.

Section RoundCounter.
Variables (d : Mode) (M : Macros) (P : Parser).
Variables (c0 : Z) (e0 : nat).

Lemma counter_tracks_ends_step a s :
  counter_tracks_ends c0 e0 s -> counter_tracks_ends c0 e0 (step M P a s).
Proof using Type.
  unfold counter_tracks_ends. intros [Hle Hc].
  destruct (step_round_counter M P a s) as [[-> ->]|(-> & -> & _)]; [auto|].
  split; [lia|]. intros Hfit.
  rewrite int_incr_small; rewrite Hc; lia.
Qed.

Lemma counter_tracks_ends_session sch s :
  counter_tracks_ends c0 e0 s ->
  counter_tracks_ends c0 e0 (run_final (session d M P sch s)).
Proof using Type.
  intros HS.
  pose proof (session_inv d M P (counter_tracks_ends c0 e0) (counter_tracks_ends c0 e0)) as H.
  specialize (H ltac:(
    intros s1 H1; unfold counter_tracks_ends, ends in *;
    destruct (begin_round_counters d P s1) as [-> ->]; exact H1)).
  specialize (H counter_tracks_ends_step).
  specialize (H ltac:(
    intros s1 H1 _; unfold counter_tracks_ends, ends in *; cbn;
    rewrite fired_count_app; cbn; rewrite Nat.add_0_r; exact H1)).
  specialize (H ltac:(intros s1 H1 _ _; exact H1) sch s HS).
  destruct (session d M P sch s); cbn; intuition.
Qed.
End RoundCounter.

(** C5.  In a session of either driver, over any schedule and any input, if
    [N] END events and [K] PANIC events have happened since state [s], the
    round counter has grown by exactly [N] (as long as that fits the [int]):
    each END adds one, a PANIC adds nothing. *)
Theorem C5_round_counter_counts_END_events d M P sch s (N K : nat) :
  ends (run_final (session d M P sch s)) = (ends s + N)%nat ->
  fired_count PANIC (trace (run_final (session d M P sch s)))
    = (fired_count PANIC (trace s) + K)%nat ->
  count s + Z.of_nat N <= INT_MAX ->
  count (run_final (session d M P sch s)) = count s + Z.of_nat N.
Proof.
  intros HN _ Hfit.
  destruct (counter_tracks_ends_session d M P (count s) (ends s) sch s) as [_ H].
  - split; [lia|]. intros _. rewrite Nat.sub_diag. lia.
  - rewrite HN in H. replace (ends s + N - ends s)%nat with N in H by lia. auto.
Qed.

(** Two captures after a PANIC: the counter is 2. *)
Lemma C5_witness :
  count (run_final (session MultiRound example_macros (example_parser 0)
                      (repeat Scan 12) panic_then_two_captures))
  = count panic_then_two_captures + Z.of_nat 2.
Proof.
  apply (C5_round_counter_counts_END_events MultiRound example_macros
           (example_parser 0) (repeat Scan 12) panic_then_two_captures 2 1).
  - vm_compute. reflexivity.
  - vm_compute. reflexivity.
  - vm_compute. discriminate.
Defined.

(* ================================================================== *)
(** * Stopping the drivers (C6, C7) *)

(** [running] is cleared by the END branch alone, when the incremented
    counter has reached a positive maximum. *)
Lemma step_running M P a s :
  let s' := step M P a s in
  (count s' = count s /\ ends s' = ends s /\ running s' = running s) \/
  (count s' = int_incr (count s) /\ ends s' = S (ends s) /\
   running s' = if (0 <? getMaxMeasures P) && (getMaxMeasures P <=? int_incr (count s))
                then false else running s).
Proof.
  unfold ends. step_cases a s; count_events;
    solve [ left; repeat split; (reflexivity || lia)
          | right; repeat split; (reflexivity || lia) ].
Qed.

(** The passes that were left and the power cycles are in step. *)
Lemma step_passes M P a s :
  let s' := step M P a s in
  reset_count (trace s') = reset_count (trace s) /\
  (passes_left s' + pass_open s' = passes_left s + pass_open s)%nat.
Proof.
  unfold passes_left. step_cases a s; unfold pass_open; cbn; count_events; split; lia.
Qed.

Lemma begin_round_resets d P s :
  reset_count (trace (enter_loop (begin_round d P s))) = S (reset_count (trace s)).
Proof. destruct d; cbn; count_events; lia. Qed.

Section MaxRounds.
Variables (M : Macros) (P : Parser).
Hypothesis max_pos : 0 < getMaxMeasures P.
Hypothesis max_int : getMaxMeasures P <= INT_MAX.

Lemma running_until_max_step a s :
  running_until_max (getMaxMeasures P) s ->
  running_until_max (getMaxMeasures P) (step M P a s).
Proof using max_pos max_int.
  unfold running_until_max. intros [Ht Hf].
  destruct (step_running M P a s) as [(-> & -> & ->)|(-> & -> & ->)]; [auto|].
  destruct (running s) eqn:R.
  - destruct (Ht eq_refl) as [Hc Hlt].
    rewrite int_incr_small by lia. rewrite Hc.
    destruct (0 <? getMaxMeasures P) eqn:T1; [|lia]. cbn.
    destruct (getMaxMeasures P <=? Z.of_nat (ends s) + 1) eqn:T2; split; intros; try discriminate; lia.
  - specialize (Hf eq_refl).
    replace (if (0 <? getMaxMeasures P) && (getMaxMeasures P <=? int_incr (count s))
             then false else false) with false by (now destruct (_ && _)).
    split; intros; [discriminate | lia].
Qed.

Lemma running_until_max_run sch s :
  below_max (getMaxMeasures P) s ->
  match run M P sch s with
  | Stopped s' =>
      running_until_max (getMaxMeasures P) s' /\ interrupt s' = true /\ running s' = false
  | InPass s' => running_until_max (getMaxMeasures P) s'
  | OutOfFuel _ => False
  end.
Proof using max_pos max_int.
  apply (session_inv MultiRound M P (below_max (getMaxMeasures P))
           (running_until_max (getMaxMeasures P))).
  - intros s1 [H1 H2]. unfold running_until_max, ends.
    destruct (begin_round_counters MultiRound P s1) as [-> ->]. cbn.
    split; [auto | discriminate].
  - apply running_until_max_step.
  - intros s1 H1 _. unfold running_until_max, ends in *. cbn.
    rewrite fired_count_app. cbn. rewrite Nat.add_0_r. exact H1.
  - intros s1 [H1 _] _ R. cbn in R. exact (H1 R).
Qed.
End MaxRounds.

(** C6, as the code has it.  With a maximum of 3 rounds the multi-round
    driver is left only when a pass returns after the third END event:
    never before that event, and not at the event itself.  Inside a pass
    [running] is false exactly when three END events have happened, so the
    pass in which the third END occurred is the last one: it returns false at
    its FINISHED or PANIC and no further round is begun.  Until then the
    scanner keeps handling bytes. *)
Theorem C6_driver_stops_when_pass_with_third_END_returns M P sch e k rx :
  getMaxMeasures P = 3 ->
  match run M P sch (session_start e k rx) with
  | Stopped s' => (3 <= ends s')%nat /\ interrupt s' = true /\ running s' = false
  | InPass s' => running s' = false <-> (3 <= ends s')%nat
  | OutOfFuel _ => False
  end.
Proof.
  intros Hmax.
  pose proof (running_until_max_run M P) as H. rewrite Hmax in H.
  specialize (H ltac:(lia) ltac:(unfold INT_MAX; lia) sch (session_start e k rx)).
  specialize (H ltac:(split; cbn; lia)).
  destruct (run M P sch _) as [s'|s'|s']; [| |exact H].
  - destruct H as ([_ Hf] & Hi & Hr). repeat split; auto. specialize (Hf Hr). lia.
  - destruct H as [Ht Hf]. split.
    + intros R. specialize (Hf R). lia.
    + intros H3. destruct (running s'); [|reflexivity].
      destruct (Ht eq_refl). lia.
Qed.

(** Three captures, then FINISHED: the driver stops. *)
Lemma C6_witness :
  match run example_macros (example_parser 3) (repeat Scan 17)
          (session_start false (new_sink FileSink)
             (framed example_macros ["A"%char] ++ framed example_macros ["B"%char]
                ++ framed example_macros ["C"%char]
                ++ [FINISHED_1 example_macros; FINISHED_2 example_macros])) with
  | Stopped s' => (3 <= ends s')%nat /\ interrupt s' = true /\ running s' = false
  | InPass s' => running s' = false <-> (3 <= ends s')%nat
  | OutOfFuel _ => False
  end.
Proof.
  apply (C6_driver_stops_when_pass_with_third_END_returns
           example_macros (example_parser 3)).
  reflexivity.
Defined.

(** C6 as stated fails.  Four captures arrive without FINISHED or PANIC in
    between: after the third END the driver has not stopped, the scanner
    has entered capture state a fourth time and a fourth END has been
    counted. *)
Lemma C6_counterexample :
  let s := run_final (run example_macros (example_parser 3) (repeat Scan 20) four_captures) in
  run example_macros (example_parser 3) (repeat Scan 20) four_captures = InPass s /\
  ends s = 4%nat /\ count s = 4 /\ interrupt s = false /\
  fired_count START (trace s) = 4%nat.
Proof. vm_compute. repeat split. Qed.

Section SingleShot.
Variables (M : Macros) (P : Parser).

Lemma fresh_until_END_step a s :
  fresh_until_END s -> fresh_until_END (step M P a s).
Proof using Type.
  unfold fresh_until_END. intros H.
  destruct (step_running M P a s) as [(-> & -> & ->)|(_ & -> & _)]; [auto | discriminate].
Qed.

Lemma one_reset_per_pass_step a s :
  one_reset_per_pass s -> one_reset_per_pass (step M P a s).
Proof using Type.
  unfold one_reset_per_pass. intros H.
  destruct (step_passes M P a s) as [-> ->]. exact H.
Qed.

Lemma single_shot_stops_after_END sch s :
  (ends s = O -> count s = 0) ->
  forall s', run_single M P sch s = Stopped s' -> (1 <= ends s')%nat.
Proof using Type.
  intros HS s' Hrun.
  pose proof (session_inv SingleShot M P (fun s => ends s = O -> count s = 0)
                fresh_until_END) as H.
  specialize (H ltac:(
    intros s1 H1; unfold fresh_until_END, ends;
    destruct (begin_round_counters SingleShot P s1) as [-> ->]; cbn; auto)).
  specialize (H fresh_until_END_step).
  specialize (H ltac:(
    intros s1 H1 _; unfold fresh_until_END, ends in *; cbn;
    rewrite fired_count_app; cbn; rewrite Nat.add_0_r; exact H1)).
  specialize (H ltac:(intros s1 H1 _ _ H0; exact (proj1 (H1 H0))) sch s HS).
  change (session SingleShot M P sch s) with (run_single M P sch s) in H.
  rewrite Hrun in H. destruct H as (Hf & _ & Hag). cbn in Hag.
  destruct (ends s') eqn:E; [|lia].
  destruct (Hf E) as [Hc Hr]. rewrite Hc, Hr in Hag. discriminate.
Qed.

Lemma single_shot_resets sch s :
  reset_count (trace s) = passes_left s ->
  forall s', run_single M P sch s = Stopped s' ->
             reset_count (trace s') = passes_left s'.
Proof using Type.
  intros HS s' Hrun.
  pose proof (session_inv SingleShot M P
                (fun s => reset_count (trace s) = passes_left s)
                one_reset_per_pass) as H.
  specialize (H ltac:(
    intros s1 H1; unfold one_reset_per_pass, passes_left, pass_open in *;
    rewrite begin_round_resets;
    destruct (begin_round_counters SingleShot P s1) as [_ Hm]; rewrite !Hm;
    cbn; lia)).
  specialize (H one_reset_per_pass_step).
  specialize (H ltac:(
    intros s1 H1 _; unfold one_reset_per_pass, passes_left, pass_open in *; cbn;
    rewrite !fired_count_app, reset_count_app; cbn; lia)).
  specialize (H ltac:(
    intros s1 H1 Hi _; unfold one_reset_per_pass, pass_open in H1;
    rewrite Hi in H1; cbv beta; lia)
    sch s HS).
  change (session SingleShot M P sch s) with (run_single M P sch s) in H.
  rewrite Hrun in H. destruct H as (Hf & Hi & _).
  unfold one_reset_per_pass, pass_open in Hf. rewrite Hi in Hf. lia.
Qed.
End SingleShot.

Lemma rounds_after_END_app seen tr1 tr2 :
  rounds_after_END seen (tr1 ++ tr2)
  = (rounds_after_END seen tr1
     + rounds_after_END (seen || (0 <? fired_count END tr1)%nat) tr2)%nat.
Proof.
  revert seen. induction tr1 as [|e tr1 IH]; intros seen.
  - cbn. rewrite orb_false_r. reflexivity.
  - destruct e; try (cbn [app rounds_after_END fired_count]; apply IH).
    + destruct high; cbn [app rounds_after_END fired_count]; rewrite IH;
        [lia | reflexivity].
    + destruct m; cbn [app rounds_after_END fired_count Marker_eqb Nat.add];
        rewrite IH; try reflexivity.
      cbn [Nat.ltb Nat.leb]. rewrite !orb_true_r. reflexivity.
Qed.

(** No step of a pass begins a round. *)
Lemma rounds_after_END_step M P a s seen :
  rounds_after_END seen (trace (step M P a s)) = rounds_after_END seen (trace s).
Proof.
  destruct s as [rn lc i wp ir cc inp jn orp ex cnt po st tr].
  destruct a as [|k]; cbn [step]; [scan_cases | tick_cases]; auto.
  all: cbn; split_tests; auto.
  all: rewrite ?rounds_after_END_app; cbn; lia.
Qed.

Lemma stops_at_END_step M P a s : stops_at_END s -> stops_at_END (step M P a s).
Proof.
  unfold stops_at_END. intros [HC HR].
  split; [apply counter_tracks_ends_step; exact HC|].
  intros Hfit. rewrite rounds_after_END_step. apply HR.
  destruct (step_round_counter M P a s) as [[_ E]|(_ & E & _)]; rewrite E in Hfit; lia.
Qed.

(** A round begun while no END has happened. *)
Lemma stops_at_END_begin P s :
  counter_tracks_ends 0 0 s ->
  (Z.of_nat (ends s) <= INT_MAX ->
   ends s = O /\ rounds_after_END false (trace s) = O) ->
  stops_at_END (enter_loop (begin_round SingleShot P s)).
Proof.
  unfold stops_at_END, counter_tracks_ends, ends. intros HC HS.
  destruct (begin_round_counters SingleShot P s) as [Ec Em]. rewrite Ec, !Em.
  split; [exact HC|]. intros Hfit. destruct (HS Hfit) as [E0 HR].
  cbn. rewrite !rounds_after_END_app, !fired_count_app, HR. unfold ends in E0.
  rewrite E0. reflexivity.
Qed.

Lemma stops_at_END_session M P sch s :
  counter_tracks_ends 0 0 s ->
  (Z.of_nat (ends s) <= INT_MAX ->
   ends s = O /\ rounds_after_END false (trace s) = O) ->
  match run_single M P sch s with
  | Stopped s' | InPass s' => stops_at_END s'
  | OutOfFuel _ => False
  end.
Proof.
  intros HC HS.
  pose proof (session_inv SingleShot M P
                (fun s1 => counter_tracks_ends 0 0 s1 /\
                           (Z.of_nat (ends s1) <= INT_MAX ->
                            ends s1 = O /\ rounds_after_END false (trace s1) = O))
                stops_at_END) as H.
  cbv beta in H.
  specialize (H ltac:(intros s1 [H1 H2]; apply stops_at_END_begin; assumption)).
  specialize (H (stops_at_END_step M P)).
  specialize (H ltac:(
    intros s1 [H1 H2] _; unfold stops_at_END, counter_tracks_ends, ends in *; cbn;
    rewrite fired_count_app, rounds_after_END_app; cbn;
    rewrite !Nat.add_0_r; split; assumption)).
  specialize (H ltac:(
    intros s1 [H1 H2] _ Hag; split; [exact H1|]; intros Hfit;
    cbn in Hag; apply andb_true_iff in Hag as [_ Hc]; apply Z.eqb_eq in Hc;
    destruct H1 as [_ H1]; rewrite Nat.sub_0_r in H1;
    specialize (H1 ltac:(lia)); split; [lia | exact (H2 Hfit)])).
  specialize (H sch s (conj HC HS)).
  change (session SingleShot M P sch s) with (run_single M P sch s) in H.
  destruct (run_single M P sch s); tauto.
Qed.

(** One power cycle per pass, also while a pass is running. *)
Lemma single_shot_in_pass M P sch s :
  reset_count (trace s) = passes_left s ->
  forall s', run_single M P sch s = InPass s' -> one_reset_per_pass s'.
Proof.
  intros HS s' Hrun.
  pose proof (session_inv SingleShot M P
                (fun s => reset_count (trace s) = passes_left s)
                one_reset_per_pass) as H.
  specialize (H ltac:(
    intros s1 H1; unfold one_reset_per_pass, passes_left, pass_open in *;
    rewrite begin_round_resets;
    destruct (begin_round_counters SingleShot P s1) as [_ Hm]; rewrite !Hm;
    cbn; lia)).
  specialize (H (one_reset_per_pass_step M P)).
  specialize (H ltac:(
    intros s1 H1 _; unfold one_reset_per_pass, passes_left, pass_open in *; cbn;
    rewrite !fired_count_app, reset_count_app; cbn; lia)).
  specialize (H ltac:(
    intros s1 H1 Hi _; unfold one_reset_per_pass, pass_open in H1;
    rewrite Hi in H1; cbv beta; lia)
    sch s HS).
  change (session SingleShot M P sch s) with (run_single M P sch s) in H.
  rewrite Hrun in H. exact H.
Qed.

(** C7, as the code has it.  The single-shot driver repeats the
    reset-and-scan round exactly while a pass returns with the round
    counter still 0 (and [running] true).  It does not stop before an END
    event: when it has stopped, at least one END event has happened, and it
    has executed one round for every pass that was left through FINISHED or
    PANIC; so a round that ends through FINISHED or PANIC before any END is
    followed by another round.  And it stops at the first pass that returns
    after an END event: at no point of the session has a round been begun
    after an END event (as long as the END events fit the [int] counter);
    when the schedule ends inside a pass, that pass is the one round begun
    beyond the passes that were left.  The step behind it: from any state,
    a first pass that returns with the counter different from 0 ends the
    session there, whatever [running] is and whatever is left of the
    schedule and of the line. *)
Theorem C7_single_shot_repeats_until_END M P sch e rx :
  match run_single M P sch (session_start e (new_sink MemorySink) rx) with
  | Stopped s' =>
      (1 <= ends s')%nat /\ reset_count (trace s') = passes_left s' /\
      (Z.of_nat (ends s') <= INT_MAX -> rounds_after_END false (trace s') = O)
  | InPass s' =>
      reset_count (trace s') = (passes_left s' + pass_open s')%nat /\
      (Z.of_nat (ends s') <= INT_MAX -> rounds_after_END false (trace s') = O)
  | OutOfFuel _ => False
  end /\
  (forall sch1 s1 s2 rest,
      loop M P sch1 (reset P s1) = Returned s2 rest ->
      count s2 <> 0 ->
      run_single M P sch1 s1 = Stopped s2).
Proof.
  split.
  2:{ intros sch1 s1 s2 rest HL Hc. unfold run_single. cbn [run_single_rounds].
      rewrite HL. replace (count s2 =? 0) with false by (symmetry; apply Z.eqb_neq; exact Hc).
      rewrite andb_false_r. reflexivity. }
  pose proof (stops_at_END_session M P sch (session_start e (new_sink MemorySink) rx)
                ltac:(split; [cbn; lia | reflexivity])
                ltac:(intros _; split; reflexivity)) as H.
  destruct (run_single M P sch (session_start e (new_sink MemorySink) rx))
    as [s'|s'|s'] eqn:E; [| |contradiction].
  - split; [|split].
    + apply (single_shot_stops_after_END M P sch
               (session_start e (new_sink MemorySink) rx)); [reflexivity | exact E].
    + apply (single_shot_resets M P sch
               (session_start e (new_sink MemorySink) rx)); [reflexivity | exact E].
    + apply H.
  - split; [|apply H].
    apply (single_shot_in_pass M P sch
             (session_start e (new_sink MemorySink) rx)); [reflexivity | exact E].
Qed.

(** No maximum configured ([running] stays true).  A PANIC, then a capture
    followed by FINISHED, then more bytes and more schedule: the round is
    repeated after the PANIC, and the session stops after the capture, the
    bytes behind FINISHED left unread. *)
Lemma C7_witness :
  let s' := run_final (run_single example_macros (example_parser 0) (repeat Scan 16)
                         (session_start false (new_sink MemorySink)
                            panic_capture_more_rx)) in
  (1 <= ends s')%nat /\ reset_count (trace s') = passes_left s' /\
  rounds_after_END false (trace s') = O.
Proof.
  pose proof (C7_single_shot_repeats_until_END example_macros (example_parser 0)
                (repeat Scan 16) false panic_capture_more_rx) as H0.
  destruct H0 as [H _].
  assert (E : run_single example_macros (example_parser 0) (repeat Scan 16)
                (session_start false (new_sink MemorySink) panic_capture_more_rx)
              = Stopped (run_final
                           (run_single example_macros (example_parser 0) (repeat Scan 16)
                              (session_start false (new_sink MemorySink)
                                 panic_capture_more_rx))))
    by (vm_compute; reflexivity).
  rewrite E in H. destruct H as (H1 & H2 & H3).
  split; [exact H1|]. split; [exact H2|]. apply H3. vm_compute. discriminate.
Defined.

(** C7 as stated fails.  The first round ends through PANIC without any
    END: the session is not stopped after round index 0, a second
    reset-and-scan round is executed. *)
Lemma C7_counterexample :
  let s' := run_final (run_single example_macros (example_parser 1) (repeat Scan 9)
                         (session_start false (new_sink MemorySink) panic_then_capture_rx)) in
  run_single example_macros (example_parser 1) (repeat Scan 9)
    (session_start false (new_sink MemorySink) panic_then_capture_rx) = Stopped s' /\
  reset_count (trace s') = 2%nat /\ data (pufOutput s') = ["A"%char].
Proof. vm_compute. repeat split. Qed.

(** The run of the witness by evaluation: two rounds, the capture of the
    second, and the five bytes behind FINISHED still on the line. *)
Example single_shot_stops_with_bytes_left :
  let s' := run_final (run_single example_macros (example_parser 0) (repeat Scan 16)
                         (session_start false (new_sink MemorySink)
                            panic_capture_more_rx)) in
  reset_count (trace s') = 2%nat /\ data (pufOutput s') = ["A"%char] /\
  length (stream s') = 5%nat.
Proof. vm_compute. repeat split. Qed.

(* ================================================================== *)
(** * The byte framing rule (C1, C9) *)

(** What the deferred write does to the fields the framing rule looks
    at. *)
Lemma deferred_write_framing M s :
  let s' := deferred_write M s in
  joining s' = joining s /\ interrupt s' = interrupt s /\ input s' = input s /\
  stream s' = stream s /\ lastChar s' = in_ s /\ writePuf s' = writePuf s /\
  charCount s' = (if writePuf s then int_incr (charCount s) else charCount s) /\
  kind (pufOutput s') = kind (pufOutput s) /\
  is_open (pufOutput s') = is_open (pufOutput s) /\
  data (pufOutput s') =
    data (if writePuf s && (1 <? charCount s)
          then sink_put (lastChar s) (pufOutput s) else pufOutput s).
Proof.
  destruct s as [rn lc i wp ir cc inp jn orp ex cnt [pk pop pd pf] st tr].
  unfold deferred_write; cbn. destruct wp; cbn; [|repeat split].
  destruct (1 <? cc); cbn; unfold sink_put, sink_flush; cbn;
    destruct (_ =? 0); cbn; destruct pop; cbn; repeat split.
Qed.

(** What the deferred write leaves alone. *)
Lemma deferred_write_frame M s :
  let s' := deferred_write M s in
  running s' = running s /\ orphans s' = orphans s /\
  expectInput s' = expectInput s /\ count s' = count s /\
  (forall m, fired_count m (trace s') = fired_count m (trace s)) /\
  tx_bytes (trace s') = tx_bytes (trace s).
Proof.
  destruct s as [rn lc i wp ir cc inp jn orp ex cnt po st tr].
  unfold deferred_write; cbn. destruct wp; cbn; [|repeat split].
  destruct (1 <? cc); cbn; destruct (_ =? 0); cbn; repeat split;
    intros; count_events; rewrite ?app_nil_r; (reflexivity || lia).
Qed.

(** Taking a byte off the line when no join is pending. *)
Lemma scan_takes_byte M P s c rest :
  joining s = None -> interrupt s = false -> stream s = c :: rest ->
  exists s1,
    scan M P s = branch M P (classify M (lastChar s) c) s1 /\
    joining s1 = None /\ interrupt s1 = false /\ input s1 = input s /\
    stream s1 = rest /\ lastChar s1 = lastChar s /\ in_ s1 = c /\
    writePuf s1 = writePuf s /\ charCount s1 = charCount s /\
    pufOutput s1 = pufOutput s /\
    (expectInput s1 = expectInput s /\ orphans s1 = orphans s /\
     (forall m, fired_count m (trace s1) = fired_count m (trace s)) /\
     exists live, trace s1 = trace s ++ live /\ tx_bytes live = []).
Proof.
  intros Hj Hi Hs. unfold scan. rewrite Hj, Hi, Hs. cbv zeta.
  change (writePuf (set_in_ c (set_stream rest s))) with (writePuf s).
  destruct (writePuf s) eqn:Hw.
  - exists (set_in_ c (set_stream rest s)).
    split; [reflexivity|]. cbn. repeat split; auto.
    exists []. rewrite app_nil_r. auto.
  - exists (emit (Live (shown c)) (set_in_ c (set_stream rest s))).
    split; [reflexivity|]. cbn. repeat split; auto.
    + intros m. rewrite fired_count_app. cbn. lia.
    + exists [Live (shown c)]. auto.
Qed.

Lemma kind_sink_put c k : kind (sink_put c k) = kind k.
Proof. unfold sink_put. destruct (is_open k); reflexivity. Qed.

Lemma is_open_sink_put c k : is_open (sink_put c k) = is_open k.
Proof. unfold sink_put. destruct (is_open k) eqn:E; cbn; congruence. Qed.

Lemma data_sink_put (k k' : Sink) c :
  is_open k' = is_open k -> data k' = data k ->
  data (sink_put c k') = data (sink_put c k).
Proof.
  unfold sink_put. intros Ho Hd. rewrite Ho.
  destruct (is_open k); cbn; congruence.
Qed.

Lemma kind_close_flush k : kind (sink_close (sink_flush k)) = kind k.
Proof. destruct k as [[] [] d f]; reflexivity. Qed.

Lemma is_open_close_flush k :
  is_open (sink_close (sink_flush k))
  = match kind k with FileSink => false | MemorySink => is_open k end.
Proof. destruct k as [[] [] d f]; reflexivity. Qed.

Lemma data_close_flush k : data (sink_close (sink_flush k)) = data k.
Proof. destruct k as [[] [] d f]; reflexivity. Qed.

(** A byte that completes no marker: inside a capture the previous byte
    is written once two bytes have been counted, and the byte is counted. *)
Lemma framing_plain M P s lc wp cc k c rest :
  framing s lc wp cc k (c :: rest) ->
  classify M lc c = None ->
  framing (scan M P s) c wp (if wp then int_incr cc else cc)
    (if wp && (1 <? cc) then sink_put lc k else k) rest.
Proof.
  intros (Hj & Hi & Hin & Hs & Hlc & Hwp & Hcc & Hk & Ho & Hd) Hc.
  destruct (scan_takes_byte M P s c rest Hj Hi Hs)
    as (s1 & -> & Hj1 & Hi1 & Hin1 & Hs1 & Hlc1 & Hc1 & Hwp1 & Hcc1 & Hp1 & _).
  rewrite Hlc, Hc. unfold branch.
  destruct (deferred_write_framing M s1)
    as (E1 & E2 & E3 & E4 & E5 & E6 & E7 & E8 & E9 & E10).
  unfold framing.
  rewrite E1, E2, E3, E4, E5, E6, E7, E8, E9, E10,
    Hj1, Hi1, Hin1, Hs1, Hlc1, Hc1, Hwp1, Hcc1, Hp1, Hin, Hlc, Hwp, Hcc.
  repeat split; try assumption;
    destruct (wp && (1 <? cc)); rewrite ?kind_sink_put, ?is_open_sink_put;
    try assumption; apply data_sink_put; assumption.
Qed.

(** The byte that completes START: capture state is entered before the
    write gate is evaluated. *)
Lemma framing_START M P s lc wp cc k c rest :
  framing s lc wp cc k (c :: rest) ->
  classify M lc c = Some START ->
  framing (scan M P s) c true (int_incr cc)
    (if 1 <? cc then sink_put lc k else k) rest.
Proof.
  intros (Hj & Hi & Hin & Hs & Hlc & Hwp & Hcc & Hk & Ho & Hd) Hc.
  destruct (scan_takes_byte M P s c rest Hj Hi Hs)
    as (s1 & -> & Hj1 & Hi1 & Hin1 & Hs1 & Hlc1 & Hc1 & Hwp1 & Hcc1 & Hp1 & _).
  rewrite Hlc, Hc. unfold branch. cbn [has_join before_join after_join].
  replace (input (set_writePuf true (emit (Fired START) s1))) with (@None Thread)
    by (cbn; congruence).
  destruct (deferred_write_framing M (set_writePuf true (emit (Fired START) s1)))
    as (E1 & E2 & E3 & E4 & E5 & E6 & E7 & E8 & E9 & E10).
  cbn in E1, E2, E3, E4, E5, E6, E7, E8, E9, E10.
  unfold framing.
  rewrite E1, E2, E3, E4, E5, E6, E7, E8, E9, E10,
    Hj1, Hi1, Hin1, Hs1, Hlc1, Hc1, Hcc1, Hp1, Hin, Hlc, Hcc.
  repeat split; try assumption;
    destruct (1 <? cc); rewrite ?kind_sink_put, ?is_open_sink_put;
    try assumption; apply data_sink_put; assumption.
Qed.

(** The END branch, as far as the framing rule is concerned. *)
Lemma before_join_END_framing P s :
  let s' := before_join P END s in
  joining s' = joining s /\ interrupt s' = interrupt s /\ input s' = input s /\
  stream s' = stream s /\ lastChar s' = lastChar s /\ in_ s' = in_ s /\
  writePuf s' = false /\ charCount s' = charCount s /\
  pufOutput s' = sink_close (sink_flush (pufOutput s)).
Proof.
  cbn. destruct (_ && _); cbn; repeat split.
Qed.

(** The byte that completes END: capture state is left before the write
    gate is evaluated, so the first END byte is not written. *)
Lemma framing_END M P s lc wp cc k c rest :
  framing s lc wp cc k (c :: rest) ->
  classify M lc c = Some END ->
  framing (scan M P s) c false cc (sink_close (sink_flush k)) rest.
Proof.
  intros (Hj & Hi & Hin & Hs & Hlc & Hwp & Hcc & Hk & Ho & Hd) Hc.
  destruct (scan_takes_byte M P s c rest Hj Hi Hs)
    as (s1 & -> & Hj1 & Hi1 & Hin1 & Hs1 & Hlc1 & Hc1 & Hwp1 & Hcc1 & Hp1 & _).
  rewrite Hlc, Hc. unfold branch. cbn [has_join].
  destruct (before_join_END_framing P (emit (Fired END) s1))
    as (B1 & B2 & B3 & B4 & B5 & B6 & B7 & B8 & B9).
  cbn [emit set_trace joining interrupt input stream lastChar in_ charCount pufOutput]
    in B1, B2, B3, B4, B5, B6, B8, B9.
  destruct (deferred_write_framing M (before_join P END (emit (Fired END) s1)))
    as (E1 & E2 & E3 & E4 & E5 & E6 & E7 & E8 & E9 & E10).
  unfold framing.
  rewrite E1, E2, E3, E4, E5, E6, E7, E8, E9, E10, B1, B2, B3, B4, B6, B7, B8, B9,
    Hj1, Hi1, Hin1, Hs1, Hc1, Hcc1, Hp1, Hin, Hcc.
  cbn [andb].
  repeat split; try assumption;
    rewrite ?kind_close_flush, ?is_open_close_flush, ?data_close_flush,
      ?Hk, ?Ho, ?Hd; reflexivity.
Qed.

Lemma loop_from_Scan M P sch s lc wp cc k rest :
  framing s lc wp cc k rest ->
  loop_from M P (Scan :: sch) s = loop_from M P sch (scan M P s).
Proof.
  intros (_ & Hi & _). cbn. unfold returned. rewrite Hi. reflexivity.
Qed.

Lemma loop_from_end M P s lc wp cc k rest :
  framing s lc wp cc k rest -> loop_from M P [] s = Pending s.
Proof.
  intros (_ & Hi & _). cbn. unfold returned. rewrite Hi. reflexivity.
Qed.

Lemma sink_puts_snoc l c k : sink_puts (l ++ [c]) k = sink_put c (sink_puts l k).
Proof. unfold sink_puts. rewrite fold_left_app. reflexivity. Qed.

Lemma sink_puts_open l k :
  is_open k = true ->
  is_open (sink_puts l k) = true /\ data (sink_puts l k) = data k ++ l /\
  kind (sink_puts l k) = kind k.
Proof.
  revert k. induction l as [|c l IH]; intros k Hk; cbn.
  - rewrite app_nil_r. auto.
  - destruct (IH (sink_put c k)) as (H1 & H2 & H3).
    + unfold sink_put. rewrite Hk. reflexivity.
    + unfold sink_puts in *. rewrite H1, H2, H3. unfold sink_put. rewrite Hk. cbn.
      rewrite <- app_assoc. auto.
Qed.

Lemma last_cons (c : ascii) l d : List.last (c :: l) d = List.last l c.
Proof.
  revert c d. induction l as [|a l IH]; intros c d; [reflexivity|].
  change (List.last (c :: a :: l) d) with (List.last (a :: l) d).
  rewrite !IH. reflexivity.
Qed.

(** Inside a capture whose write gate is open, a run of bytes that
    completes no marker is written out one byte late. *)
Lemma plain_bytes M P l :
  forall sch s lc cc k rest,
    framing s lc true cc k (l ++ rest) ->
    quiet M lc l -> 2 <= cc -> cc + Z.of_nat (length l) <= INT_MAX ->
    exists s',
      loop_from M P (repeat Scan (length l) ++ sch) s = loop_from M P sch s' /\
      framing s' (List.last l lc) true (cc + Z.of_nat (length l))
        (sink_puts (removelast (lc :: l)) k) rest.
Proof.
  induction l as [|c l IH]; intros sch s lc cc k rest HF HQ Hcc Hfit.
  - exists s. cbn. rewrite Z.add_0_r. auto.
  - destruct HQ as [Hc HQ].
    pose proof (framing_plain M P s lc true cc k c (l ++ rest) HF Hc) as HF'.
    cbn [andb] in HF'. replace (1 <? cc) with true in HF' by (symmetry; apply Z.ltb_lt; lia).
    rewrite int_incr_small in HF' by (cbn [length] in Hfit; lia).
    destruct (IH sch (scan M P s) c (cc + 1) (sink_put lc k) rest HF' HQ) as (s' & HL & HF'');
      [lia | cbn [length] in Hfit; lia |].
    exists s'. split.
    + cbn [length repeat app]. erewrite loop_from_Scan by exact HF. exact HL.
    + rewrite last_cons.
      replace (cc + Z.of_nat (length (c :: l))) with (cc + 1 + Z.of_nat (length l))
        by (cbn [length]; lia).
      exact HF''.
Qed.

(** The capture of a framed payload is the payload: the four sentinel
    bytes are left out and nothing else. *)
Lemma capture_is_payload M P e k payload :
  classify M " "%char (START_1 M) = None ->
  quiet M (START_2 M) (payload ++ [END_1 M]) ->
  classify M (END_1 M) (END_2 M) = Some END ->
  Z.of_nat (length payload) + 2 <= INT_MAX ->
  data (pufOutput (final (loop M P (repeat Scan (length payload + 4))
                            (session_start e (new_sink k) (framed M payload)))))
  = payload.
Proof.
  intros H1 HQ HE Hfit. unfold loop.
  assert (HF0 : framing (enter_loop (session_start e (new_sink k) (framed M payload)))
                  " "%char false 0 (new_sink k)
                  (START_1 M :: START_2 M :: (payload ++ [END_1 M]) ++ [END_2 M])).
  { unfold framing, framed. cbn. rewrite <- app_assoc. repeat split. }
  pose proof (framing_plain M P _ _ _ _ _ _ _ HF0 H1) as HF1. cbn [andb] in HF1.
  pose proof (framing_START M P _ _ _ _ _ _ _ HF1 (classify_START M)) as HF2.
  change (1 <? 0) with false in HF2. change (int_incr 0) with 1 in HF2.
  replace (length payload + 4)%nat with (S (S (length (payload ++ [END_1 M]) + 1)))
    by (rewrite length_app; cbn; lia).
  cbn [repeat]. erewrite loop_from_Scan by exact HF0. erewrite loop_from_Scan by exact HF1.
  destruct (payload ++ [END_1 M]) as [|x l] eqn:Epl.
  { destruct payload; discriminate. }
  destruct HQ as [Hx HQ].
  pose proof (framing_plain M P _ _ _ _ _ _ _ HF2 Hx) as HF3.
  change (true && (1 <? 1)) with false in HF3. change (int_incr 1) with 2 in HF3.
  assert (Hlen : length (x :: l) = S (length payload)).
  { rewrite <- Epl, length_app. cbn. lia. }
  cbn [length] in Hlen.
  destruct (plain_bytes M P l [Scan] _ _ _ _ _ HF3 HQ ltac:(lia) ltac:(lia))
    as (s' & HL & HF4).
  cbn [length Nat.add repeat]. erewrite loop_from_Scan by exact HF2.
  rewrite repeat_app. cbn [repeat]. rewrite HL.
  assert (Hlast : List.last l x = END_1 M).
  { rewrite <- (last_cons x l " "%char), <- Epl. apply last_last. }
  assert (Hrm : removelast (x :: l) = payload).
  { rewrite <- Epl. apply removelast_last. }
  rewrite Hlast, Hrm in HF4.
  pose proof (framing_END M P _ _ _ _ _ _ _ HF4 HE) as HF5.
  erewrite loop_from_Scan by exact HF4. erewrite loop_from_end by exact HF5.
  cbn [final]. destruct HF5 as (_ & _ & _ & _ & _ & _ & _ & _ & _ & ->).
  destruct (sink_puts_open payload (new_sink k) eq_refl) as (Ho & Hd & Hk).
  unfold sink_close, sink_flush. rewrite Ho. cbn. rewrite Hk. cbn.
  destruct k; cbn; exact Hd.
Qed.

(** C1, as the code has it.  For the input [S1, S2, 'A', 'B', 'C', E1, E2]
    scanned from outside capture state (the pairs in between completing no
    marker), the capture holds exactly ['A', 'B', 'C']: the four sentinel
    bytes are left out, all three payload bytes are captured. *)
Theorem C1_capture_of_ABC M P e k :
  classify M " "%char (START_1 M) = None ->
  classify M (START_2 M) "A"%char = None ->
  classify M "A"%char "B"%char = None ->
  classify M "B"%char "C"%char = None ->
  classify M "C"%char (END_1 M) = None ->
  classify M (END_1 M) (END_2 M) = Some END ->
  data (pufOutput (final (loop M P (repeat Scan 7)
                            (session_start e (new_sink k)
                               (framed M ["A"; "B"; "C"]%char)))))
  = ["A"; "B"; "C"]%char.
Proof.
  intros H1 H2 H3 H4 H5 H6.
  apply (capture_is_payload M P e k ["A"; "B"; "C"]%char); cbn; auto.
  unfold INT_MAX. lia.
Qed.

Lemma C1_witness :
  data (pufOutput (final (loop example_macros (example_parser 0) (repeat Scan 7)
                            (session_start false (new_sink MemorySink)
                               (framed example_macros ["A"; "B"; "C"]%char)))))
  = ["A"; "B"; "C"]%char.
Proof.
  apply (C1_capture_of_ABC example_macros (example_parser 0) false MemorySink);
    reflexivity.
Defined.

(** C1 as stated fails: the capture is not ['A', 'B']. *)
Lemma C1_counterexample :
  data (pufOutput (final (loop example_macros (example_parser 0) (repeat Scan 7)
                            (session_start false (new_sink MemorySink)
                               (framed example_macros ["A"; "B"; "C"]%char)))))
  <> ["A"; "B"]%char.
Proof. vm_compute. discriminate. Qed.

(** No branch of the marker chain assigns [charCount]: a step leaves it
    alone or increments it. *)
Lemma step_charCount M P a s :
  charCount (step M P a s) = charCount s \/
  charCount (step M P a s) = int_incr (charCount s).
Proof. step_cases a s; auto. Qed.

(** START followed by a byte that completes no marker. *)
Lemma START_then_byte M P s wp cc k c rest :
  framing s (START_1 M) wp cc k (START_2 M :: c :: rest) ->
  classify M (START_2 M) c = None ->
  cc < INT_MAX - 1 ->
  framing (scan M P (scan M P s)) c true (cc + 2)
    (if 0 <? cc
     then sink_put (START_2 M) (if 1 <? cc then sink_put (START_1 M) k else k)
     else k) rest.
Proof.
  intros HF Hc Hfit.
  pose proof (framing_START M P _ _ _ _ _ _ _ HF (classify_START M)) as HF1.
  pose proof (framing_plain M P _ _ _ _ _ _ _ HF1 Hc) as HF2.
  cbn [andb] in HF2. rewrite !int_incr_small in HF2 by (rewrite ?int_incr_small; lia).
  replace (cc + 1 + 1) with (cc + 2) in HF2 by lia.
  replace (1 <? cc + 1) with (0 <? cc) in HF2
    by (destruct (Z.ltb_spec 0 cc), (Z.ltb_spec 1 (cc + 1)); lia).
  destruct (Z.ltb_spec 0 cc) as [H0|H0]; [exact HF2|].
  replace (1 <? cc) with false in HF2 by (symmetry; apply Z.ltb_ge; lia).
  exact HF2.
Qed.

(** START with the write gate open: the first sentinel byte is written at
    the START step itself. *)
Lemma START_gate_open M P s wp cc k rest :
  framing s (START_1 M) wp cc k (START_2 M :: rest) ->
  1 < cc < INT_MAX ->
  framing (scan M P s) (START_2 M) true (cc + 1) (sink_put (START_1 M) k) rest.
Proof.
  intros HF Hcc.
  pose proof (framing_START M P _ _ _ _ _ _ _ HF (classify_START M)) as HF1.
  rewrite int_incr_small in HF1 by lia.
  replace (1 <? cc) with true in HF1 by (symmetry; apply Z.ltb_lt; lia).
  exact HF1.
Qed.

(** START followed by a byte that completes END with its second byte. *)
Lemma START_then_END M P s wp cc k c rest :
  framing s (START_1 M) wp cc k (START_2 M :: c :: rest) ->
  classify M (START_2 M) c = Some END ->
  1 < cc < INT_MAX ->
  framing (scan M P (scan M P s)) c false (cc + 1)
    (sink_close (sink_flush (sink_put (START_1 M) k))) rest.
Proof.
  intros HF Hc Hcc.
  pose proof (START_gate_open M P s wp cc k (c :: rest) HF Hcc) as HF1.
  exact (framing_END M P _ _ _ _ _ _ _ HF1 Hc).
Qed.

(** C9, as the code has it.  No step resets the in-capture byte counter:
    it is left alone or incremented (so, short of overflowing the [int], it
    never decreases within a pass or across passes).  The write gate
    therefore suppresses the two bytes after a START only when START fires
    with the counter at 0, the first capture.  When START fires with the
    counter above 1 and there is no injector thread to join, the gate is
    open at that very step: the first byte of that START sentinel is
    inserted into the sink at the START step, whatever follows; the second
    byte is inserted at the step of the byte that follows if that byte
    completes no marker with it, and is not inserted if that byte completes
    END with it (sentinels with [END_1 = START_2]), since END leaves
    capture state before the write.  An inserted byte is appended to the
    sink when the sink is open (a file sink closed by an earlier END drops
    it). *)
Theorem C9_counter_never_reset_START_bytes_written M P :
  (forall a s,
      charCount (step M P a s) = charCount s \/
      charCount (step M P a s) = int_incr (charCount s)) /\
  (forall s wp cc k c rest,
      framing s (START_1 M) wp cc k (START_2 M :: c :: rest) ->
      classify M (START_2 M) c = None ->
      1 < cc < INT_MAX - 1 ->
      framing (scan M P (scan M P s)) c true (cc + 2)
        (sink_put (START_2 M) (sink_put (START_1 M) k)) rest /\
      (is_open k = true ->
       data (pufOutput (scan M P (scan M P s))) = data k ++ [START_1 M; START_2 M])) /\
  (forall s wp k c rest,
      framing s (START_1 M) wp 0 k (START_2 M :: c :: rest) ->
      classify M (START_2 M) c = None ->
      framing (scan M P (scan M P s)) c true 2 k rest) /\
  (forall s wp cc k rest,
      framing s (START_1 M) wp cc k (START_2 M :: rest) ->
      1 < cc < INT_MAX ->
      framing (scan M P s) (START_2 M) true (cc + 1) (sink_put (START_1 M) k) rest /\
      (is_open k = true -> data (pufOutput (scan M P s)) = data k ++ [START_1 M])) /\
  (forall s wp cc k c rest,
      framing s (START_1 M) wp cc k (START_2 M :: c :: rest) ->
      classify M (START_2 M) c = Some END ->
      1 < cc < INT_MAX ->
      framing (scan M P (scan M P s)) c false (cc + 1)
        (sink_close (sink_flush (sink_put (START_1 M) k))) rest /\
      (is_open k = true ->
       data (pufOutput (scan M P (scan M P s))) = data k ++ [START_1 M])).
Proof.
  split; [apply step_charCount|]. split; [|split; [|split]].
  - intros s wp cc k c rest HF Hc Hcc.
    pose proof (START_then_byte M P s wp cc k c rest HF Hc ltac:(lia)) as H.
    replace (0 <? cc) with true in H by (symmetry; apply Z.ltb_lt; lia).
    replace (1 <? cc) with true in H by (symmetry; apply Z.ltb_lt; lia).
    split; [exact H|]. intros Ho.
    destruct H as (_ & _ & _ & _ & _ & _ & _ & _ & _ & ->).
    unfold sink_put. rewrite Ho. cbn. rewrite <- app_assoc. reflexivity.
  - intros s wp k c rest HF Hc.
    exact (START_then_byte M P s wp 0 k c rest HF Hc ltac:(unfold INT_MAX; lia)).
  - intros s wp cc k rest HF Hcc.
    pose proof (START_gate_open M P s wp cc k rest HF Hcc) as H.
    split; [exact H|]. intros Ho.
    destruct H as (_ & _ & _ & _ & _ & _ & _ & _ & _ & ->).
    unfold sink_put. rewrite Ho. reflexivity.
  - intros s wp cc k c rest HF Hc Hcc.
    pose proof (START_then_END M P s wp cc k c rest HF Hc Hcc) as H.
    split; [exact H|]. intros Ho.
    destruct H as (_ & _ & _ & _ & _ & _ & _ & _ & _ & ->).
    rewrite data_close_flush. unfold sink_put. rewrite Ho. reflexivity.
Qed.

(** A second capture into the string stream of [gen_key]: its START
    sentinel ends up in the capture. *)
Lemma C9_witness :
  let s := final (loop example_macros (example_parser 0) (repeat Scan 7)
                    (session_start false (new_sink MemorySink) second_capture_rx)) in
  data (pufOutput (scan example_macros (example_parser 0)
                     (scan example_macros (example_parser 0) s)))
  = ["A"; "B"]%char ++ [START_1 example_macros; START_2 example_macros].
Proof.
  refine (proj2 (proj1 (proj2 (C9_counter_never_reset_START_bytes_written
                                 example_macros (example_parser 0)))
                   _ false 4
                   {| kind := MemorySink; is_open := true;
                      data := ["A"; "B"]%char; flushes := O |}
                   "C"%char ["D"%char] _ _ _) _).
  - vm_compute. repeat split.
  - reflexivity.
  - vm_compute. split; reflexivity.
  - reflexivity.
Defined.

(** C9 as stated fails.  In the multi-round driver the sink is a file,
    which the first END closes: a second capture in the same pass finds the
    write gate open, yet neither byte of its START sentinel reaches the
    sink. *)
Lemma C9_counterexample :
  let s := final (loop example_macros (example_parser 0) (repeat Scan 10)
                    (session_start false (new_sink FileSink) second_capture_rx)) in
  fired_count START (trace s) = 2%nat /\ writePuf s = true /\
  charCount s = 7 /\ data (pufOutput s) = ["A"; "B"]%char.
Proof. vm_compute. repeat split. Qed.

(** With sentinels that overlap ([END_1 = START_2]) a capture can end with
    the counter at 1: the next START then fires with the gate still closed
    and only the second sentinel byte is written. *)
Example second_START_with_counter_1 :
  let M := {| START_1 := "S"; START_2 := "T"; END_1 := "T"; END_2 := "U";
              LOADED_1 := "1"; LOADED_2 := "2"; ASK_INPUT_1 := "3"; ASK_INPUT_2 := "4";
              FINISHED_1 := "5"; FINISHED_2 := "6"; PANIC_1 := "7"; PANIC_2 := "8";
              FLUSH_INTERVAL := 1000 |}%char in
  let s := final (loop M (example_parser 0) (repeat Scan 6)
                    (session_start false (new_sink MemorySink)
                       ["S"; "T"; "U"; "S"; "T"; "x"]%char)) in
  fired_count START (trace s) = 2%nat /\ fired_count END (trace s) = 1%nat /\
  data (pufOutput s) = ["T"]%char.
Proof. vm_compute. repeat split. Qed.

(** With overlapping sentinels the byte after a second START can complete
    END: of [S T a b T U S T U] the capture holds [a b S], the second
    sentinel byte of the second START is not written. *)
Example second_START_then_END :
  let s := final (loop overlapping_macros (example_parser 0) (repeat Scan 9)
                    (session_start false (new_sink MemorySink)
                       ["S"; "T"; "a"; "b"; "T"; "U"; "S"; "T"; "U"]%char)) in
  fired_count START (trace s) = 2%nat /\ fired_count END (trace s) = 2%nat /\
  data (pufOutput s) = ["a"; "b"; "S"]%char.
Proof. vm_compute. repeat split. Qed.

(* ================================================================== *)
(** * The injector (C8, C10) *)

(** C8, as the code has it.  A thread released at a parameter [p] clears
    the may-send signal, waits 50 ms, puts the characters of [p] on the
    line with no terminator, flushes, waits 50 ms, puts one bare carriage
    return on the line and flushes: the bytes transmitted for the parameter
    are its characters followed by a single carriage return. *)
Theorem C8_parameter_then_one_CR p r s :
  expectInput s = true ->
  inj_steps 8 (Running p r PollExpect) s
  = (for_params r,
     set_trace (trace s ++ [SleepMs 50; Puts (c_str p); SerialFlush;
                            SleepMs 50; Puts [CR]; SerialFlush])
       (set_expectInput false s)) /\
  tx_bytes (trace (snd (inj_steps 8 (Running p r PollExpect) s)))
  = tx_bytes (trace s) ++ c_str p ++ [CR].
Proof.
  intros He.
  assert (E : inj_steps 8 (Running p r PollExpect) s
              = (for_params r,
                 set_trace (trace s ++ [SleepMs 50; Puts (c_str p); SerialFlush;
                                        SleepMs 50; Puts [CR]; SerialFlush])
                   (set_expectInput false s))).
  { destruct s as [rn lc i wp ir cc inp jn orp ex cnt po st tr].
    cbn in He. subst ex. cbn.
    cbv beta iota delta [emit set_trace set_expectInput running lastChar in_
                           writePuf interrupt charCount input joining orphans
                           expectInput count pufOutput stream trace].
    rewrite <- !app_assoc. reflexivity. }
  split; [exact E|]. rewrite E. cbn. rewrite tx_bytes_app. cbn.
  rewrite ?app_nil_r. reflexivity.
Qed.

Lemma C8_witness :
  tx_bytes (trace (snd (inj_steps 8 (Running "ab" [] PollExpect) signal_raised)))
  = tx_bytes (trace signal_raised) ++ c_str "ab" ++ [CR].
Proof.
  apply (C8_parameter_then_one_CR "ab" [] signal_raised). reflexivity.
Defined.

(** C8 as stated fails: for the parameter "ab" the line carries
    'a' 'b' CR, not 'a' 'b' CR CR, and the first [serialPuts] carries no
    carriage return. *)
Lemma C8_counterexample :
  let s := snd (inj_steps 8 (Running "ab" [] PollExpect) signal_raised) in
  trace s = [SleepMs 50; Puts ["a"; "b"]%char; SerialFlush;
             SleepMs 50; Puts [CR]; SerialFlush] /\
  tx_bytes (trace s) <> (c_str "ab" ++ [CR]) ++ [CR].
Proof. vm_compute. split; [reflexivity | discriminate]. Qed.

(** The scanner thread never clears the may-send signal, and sets it in
    the ASK_INPUT branch only. *)
Lemma scan_expectInput M P s :
  let s' := scan M P s in
  expectInput s' = expectInput s \/
  (expectInput s' = true /\
   fired_count ASK_INPUT (trace s') = S (fired_count ASK_INPUT (trace s)) /\
   forall m, m <> ASK_INPUT -> fired_count m (trace s') = fired_count m (trace s)).
Proof.
  destruct s as [rn lc i wp ir cc inp jn orp ex cnt po st tr]. scan_cases; auto.
  all: right; repeat split; [count_events; lia|].
  all: intros m' Hm'; destruct m'; try congruence; count_events; lia.
Qed.

(** A thread step leaves the signal alone or clears it. *)
Lemma tick_expectInput k s :
  expectInput (tick k s) = expectInput s \/
  (expectInput s = true /\ expectInput (tick k s) = false).
Proof.
  destruct s as [rn lc i wp ir cc inp jn orp ex cnt po st tr].
  tick_cases; destruct ex; auto.
Qed.

(** As long as no LOADED event happens, no injector comes into being and
    the signal stays set. *)
Lemma step_signal_kept M P a s :
  input s = None -> orphans s = [] -> expectInput s = true ->
  let s' := step M P a s in
  (fired_count LOADED (trace s) <= fired_count LOADED (trace s'))%nat /\
  (fired_count LOADED (trace s') = fired_count LOADED (trace s) ->
   input s' = None /\ orphans s' = [] /\ expectInput s' = true).
Proof.
  destruct s as [rn lc i wp ir cc inp jn orp ex cnt po st tr]. cbn.
  intros -> -> ->. destruct a as [|[|j]]; cbn [step].
  - scan_cases; count_events; split; try lia; auto; intros; lia.
  - cbn. split; auto.
  - cbn. split; auto.
Qed.

Lemma step_LOADED_count M P a s :
  (fired_count LOADED (trace s) <= fired_count LOADED (trace (step M P a s)))%nat.
Proof. step_cases a s; count_events; lia. Qed.

Lemma signal_kept_step M P l0 a s :
  signal_kept l0 s -> signal_kept l0 (step M P a s).
Proof.
  unfold signal_kept. intros [Hle H].
  pose proof (step_LOADED_count M P a s) as Hm.
  split; [lia|]. intros E.
  assert (E0 : fired_count LOADED (trace s) = l0) by lia.
  destruct (H E0) as (Hi & Ho & He).
  destruct (step_signal_kept M P a s Hi Ho He) as [_ Hs]. apply Hs. lia.
Qed.

Lemma signal_kept_session d M P sch s :
  orphans s = [] -> expectInput s = true ->
  signal_kept (fired_count LOADED (trace s)) (run_final (session d M P sch s)).
Proof.
  intros Ho He.
  pose proof (session_inv d M P
                (fun s1 => (fired_count LOADED (trace s) <= fired_count LOADED (trace s1))%nat /\
                           (fired_count LOADED (trace s1) = fired_count LOADED (trace s) ->
                            orphans s1 = [] /\ expectInput s1 = true))
                (signal_kept (fired_count LOADED (trace s)))) as H.
  specialize (H ltac:(
    intros s1 [H1 H2]; unfold signal_kept;
    destruct (begin_round_counters d P s1) as [_ Hm]; rewrite Hm;
    split; [exact H1|]; intros E; destruct (H2 E); destruct d; cbn; auto)).
  specialize (H (signal_kept_step M P _)).
  specialize (H ltac:(
    intros s1 H1 _; unfold signal_kept in *; cbn;
    rewrite fired_count_app; cbn; rewrite Nat.add_0_r; exact H1)).
  specialize (H ltac:(
    intros s1 [H1 H2] _ _; split; [exact H1|]; intros E;
    destruct (H2 E) as (_ & ? & ?); auto)
    sch s).
  cbv beta in H. specialize (H (conj (le_n _) (fun _ => conj Ho He))).
  destruct (session d M P sch s); cbn; intuition.
Qed.

(** A thread that finds the signal set at its first poll clears it, waits
    and puts its parameter on the line: four steps, none of them the
    scanner's. *)
Lemma first_parameter_sent p r s :
  input s = Some (Running p r PollExpect) -> expectInput s = true ->
  trace (ticks 4 0 s) = trace s ++ [SleepMs 50; Puts (c_str p)].
Proof.
  destruct s as [rn lc i wp ir cc inp jn orp ex cnt po st tr]. cbn.
  intros -> ->.
  cbv beta iota delta [ticks Nat.iter nat_rect tick inj_step emit set_trace
                         set_input set_expectInput running lastChar in_
                         writePuf interrupt charCount input joining orphans
                         expectInput count pufOutput stream trace].
  rewrite <- !app_assoc. reflexivity.
Qed.

Lemma spawn_first P s :
  input s = None -> spawn P s = set_input (Some (for_params (getParams P))) s.
Proof. unfold spawn. intros ->. reflexivity. Qed.

(** LOADED while the signal is set: the new thread finds it set at its
    first poll. *)
Lemma LOADED_with_signal M P s c rest p r :
  joining s = None -> interrupt s = false -> stream s = c :: rest ->
  classify M (lastChar s) c = Some LOADED ->
  input s = None -> expectInput s = true -> getParams P = p :: r ->
  let s1 := scan M P s in
  input s1 = Some (Running p r PollExpect) /\ expectInput s1 = true /\
  fired_count ASK_INPUT (trace s1) = fired_count ASK_INPUT (trace s) /\
  trace (ticks 4 0 s1) = trace s1 ++ [SleepMs 50; Puts (c_str p)].
Proof.
  intros Hj Hi Hs Hc Hin He Hp.
  destruct (scan_takes_byte M P s c rest Hj Hi Hs)
    as (s0 & E & _ & _ & Hin0 & _ & _ & _ & _ & _ & _ & He0 & _ & Hf0 & _).
  cbv zeta. rewrite E, Hc. unfold branch. cbn [has_join before_join].
  rewrite spawn_first by (cbn; congruence). rewrite Hp. cbn [for_params].
  set (s2 := set_input _ _).
  destruct (deferred_write_framing M s2) as (_ & _ & E3 & _).
  destruct (deferred_write_frame M s2) as (_ & _ & E5 & _ & E6 & _).
  assert (H1 : input (deferred_write M s2) = Some (Running p r PollExpect))
    by (rewrite E3; reflexivity).
  assert (H2 : expectInput (deferred_write M s2) = true)
    by (rewrite E5; cbn; congruence).
  repeat split; [exact H1 | exact H2 | | exact (first_parameter_sent p r _ H1 H2)].
  rewrite E6. subst s2. cbn. rewrite fired_count_app, Hf0. cbn. lia.
Qed.

(** C10.  The scanner thread never clears the may-send signal and sets it
    in the ASK_INPUT branch only (the START, END, LOADED, FINISHED and PANIC
    branches leave it as it is); a step of an injector thread leaves it
    alone or clears it.  Hence a signal raised while no injector exists
    persists, through any schedule and across passes and rounds, until a
    LOADED event; and the thread that LOADED then spawns finds the signal set
    at its first poll and puts its first parameter on the line after four
    steps of its own, without any further ASK_INPUT event. *)
Theorem C10_may_send_signal_persists M P :
  (forall s,
      let s' := scan M P s in
      expectInput s' = expectInput s \/
      (expectInput s' = true /\
       fired_count ASK_INPUT (trace s') = S (fired_count ASK_INPUT (trace s)) /\
       forall m, m <> ASK_INPUT -> fired_count m (trace s') = fired_count m (trace s))) /\
  (forall k s,
      expectInput (tick k s) = expectInput s \/
      (expectInput s = true /\ expectInput (tick k s) = false)) /\
  (forall d sch s,
      orphans s = [] -> expectInput s = true ->
      let s' := run_final (session d M P sch s) in
      fired_count LOADED (trace s') = fired_count LOADED (trace s) ->
      input s' = None /\ orphans s' = [] /\ expectInput s' = true) /\
  (forall s c rest p r,
      joining s = None -> interrupt s = false -> stream s = c :: rest ->
      classify M (lastChar s) c = Some LOADED ->
      input s = None -> expectInput s = true -> getParams P = p :: r ->
      let s1 := scan M P s in
      input s1 = Some (Running p r PollExpect) /\ expectInput s1 = true /\
      fired_count ASK_INPUT (trace s1) = fired_count ASK_INPUT (trace s) /\
      trace (ticks 4 0 s1) = trace s1 ++ [SleepMs 50; Puts (c_str p)]).
Proof.
  split; [apply scan_expectInput|].
  split; [apply tick_expectInput|].
  split.
  - intros d sch s Ho He s' E.
    destruct (signal_kept_session d M P sch s Ho He) as [_ H]. exact (H E).
  - apply LOADED_with_signal.
Qed.

(** The DUT asks for input before it reports LOADED: the injector sends
    "ab" right away. *)
Lemma C10_witness :
  let s := final (loop example_macros (example_parser 0) (repeat Scan 3)
                    (session_start false (new_sink MemorySink) ask_then_loaded_rx)) in
  let s1 := scan example_macros (example_parser 0) s in
  input s1 = Some (Running "ab" [] PollExpect) /\ expectInput s1 = true /\
  fired_count ASK_INPUT (trace s1) = fired_count ASK_INPUT (trace s) /\
  trace (ticks 4 0 s1) = trace s1 ++ [SleepMs 50; Puts (c_str "ab")].
Proof.
  apply (proj2 (proj2 (proj2 (C10_may_send_signal_persists
                                example_macros (example_parser 0))))
           _ (LOADED_2 example_macros) [] "ab"%string []);
    vm_compute; reflexivity.
Defined.

(* ================================================================== *)
(** * The key extractor (C2, C3, C4) *)

Module KeyExtractorFacts.
Import KeyExtractor.

(** C2, as the code has it.  On the capture "xx,\x41\x00" with the
    positions 0, 7, 8 and key size 3 the extractor returns "010": bit 0 is
    the most significant bit of 0x41, which is 0; bit 7 is its least
    significant bit, 1; bit 8 is the most significant bit of 0x00, 0. *)
Theorem C2_key_of_example_is_010 :
  extract_key example_capture [0; 7; 8] 3
  = Key [Some "0"%char; Some "1"%char; Some "0"%char].
Proof. vm_compute. reflexivity. Qed.

(** C2 as stated fails: the key is not "101". *)
Lemma C2_counterexample :
  extract_key example_capture [0; 7; 8] 3
  <> Key [Some "1"%char; Some "0"%char; Some "1"%char].
Proof. vm_compute. discriminate. Qed.

(** The same through [gen_key]: a single-shot session captures the
    example, the selection returns "010". *)
Example gen_key_example :
  gen_key example_macros (example_parser 1) false
    (framed example_macros example_capture
       ++ [FINISHED_1 example_macros; FINISHED_2 example_macros])
    (repeat Scan 11) [0; 7; 8] 3
  = Some (Key [Some "0"%char; Some "1"%char; Some "0"%char]).
Proof. vm_compute. reflexivity. Qed.

(** The selected character is the digit of the bit: ['1'] when bit
    [shift] of the byte is set, ['0'] otherwise. *)
Lemma bit_char_testbit c shift :
  0 <= shift <= 7 ->
  bit_char c shift
  = if N.testbit (N_of_ascii c) (Z.to_N shift) then "1"%char else "0"%char.
Proof.
  intros H.
  assert (Hs : shift = 0 \/ shift = 1 \/ shift = 2 \/ shift = 3 \/
               shift = 4 \/ shift = 5 \/ shift = 6 \/ shift = 7) by lia.
  destruct c as [[] [] [] [] [] [] [] []];
    repeat (destruct Hs as [->|Hs]; [reflexivity|]); subst; reflexivity.
Qed.

(** ** Running off the capture (C3) *)

(** Before the comma is found the loop only looks for the comma. *)
Lemma skip_to_comma pre rest v :
  commaFound v = false -> nextLine v = true -> ~ In comma pre ->
  while_nextLine (pre ++ comma :: rest) v = while_nextLine rest (set_commaFound v).
Proof.
  intros Hc Hn. induction pre as [|c pre IH]; intros Hpre; cbn.
  - rewrite Hn, Hc. rewrite ?Ascii.eqb_refl. reflexivity.
  - rewrite Hn, Hc.
    destruct (Ascii.eqb_spec c comma) as [->|_].
    + exfalso. apply Hpre. now left.
    + apply IH. intros H. apply Hpre. now right.
Qed.

(** A capture without a comma: the loop reads on past the terminator of
    the string, whatever the positions are. *)
Lemma no_comma_overrun out_str positions key_size :
  ~ In comma out_str -> 0 <= key_size ->
  extract_key out_str positions key_size = ReadOverrun (init positions key_size).
Proof.
  intros Hno Hk. unfold extract_key.
  replace (key_size <? 0) with false by (symmetry; apply Z.ltb_ge; lia).
  unfold c_str_mem.
  assert (G : forall mem v, commaFound v = false -> nextLine v = true ->
                            ~ In comma mem -> while_nextLine mem v = ReadOverrun v).
  { induction mem as [|c mem IH]; intros v Hc Hn Hm; cbn; rewrite Hn; [reflexivity|].
    rewrite Hc. destruct (Ascii.eqb_spec c comma) as [->|_].
    - exfalso. apply Hm. now left.
    - apply IH; auto. intros H. apply Hm. now right. }
  apply G; try reflexivity.
  rewrite in_app_iff. intros [H|[H|[]]]; [auto | discriminate H].
Qed.

(** C3 fails on the code.  With the capture ",A" and the positions 0 and
    100 the loop selects bit 0 and then goes on looking for bit 100: the
    capture, and the terminator behind it, are exhausted after 16 bits and
    the loop goes on beyond them, where it dereferences [in] once the bit
    counter has reached 100, instead of stopping with a short output. *)
Theorem C3_scan_reads_past_the_capture :
  extract_key [","; "A"]%char [0; 100] 2
  = ReadOverrun {| nextBit := 100; pos_file := []; count := 16; index := 1;
                   commaFound := true; nextLine := true;
                   result := [Some "0"%char; None] |}.
Proof. vm_compute. reflexivity. Qed.

Lemma while_finished mem v : nextLine v = false -> while_nextLine mem v = Key (result v).
Proof. intros H. destruct mem; cbn; rewrite H; reflexivity. Qed.

Lemma for_shift_finished n c v : nextLine v = false -> for_shift n c v = inl v.
Proof. intros H. destruct n; cbn; [|rewrite H]; reflexivity. Qed.

(** ** The selection on well-formed input (C4) *)

Section Selection.
Variables (B : list ascii) (E : list (option ascii)).
Hypothesis B_fits : 8 * Z.of_nat (length B) <= INT_MAX.

(** One bit: lines 53-59. *)
Lemma select_step c shift (j : nat) v :
  selecting B E v ->
  B !! j = Some c ->
  0 <= shift <= 7 ->
  count v = 8 * Z.of_nat j + (7 - shift) ->
  exists v1,
    select c shift v = inl v1 /\
    count (count_incr v1) = count v + 1 /\
    (selected E (count_incr v1) \/ selecting B E (count_incr v1)).
Proof using B_fits.
  intros (Hn & Hcf & [Hlo Hinc] & Hb & Hi0 & Hlen & Hmax & HE) Hc Hs Hcnt.
  assert (Hj : (j < length B)%nat) by (eapply lookup_lt_Some; eauto).
  assert (Hcm : count v < INT_MAX) by lia.
  unfold select.
  destruct (Z.eqb_spec (count v) (nextBit v)) as [Heq|Hne].
  - cbn [length] in Hlen.
    replace ((0 <=? index v) && (index v <? Z.of_nat (length (result v)))) with true
      by (symmetry; apply andb_true_iff; split; [apply Z.leb_le | apply Z.ltb_lt]; lia).
    assert (Hbit : bit_at B (nextBit v) = bit_char c shift).
    { unfold bit_at. rewrite <- Heq, Hcnt.
      replace ((8 * Z.of_nat j + (7 - shift)) / 8) with (Z.of_nat j)
        by (apply Z.div_unique with (r := 7 - shift); lia).
      replace ((8 * Z.of_nat j + (7 - shift)) mod 8) with (7 - shift)
        by (apply Z.mod_unique with (q := Z.of_nat j); lia).
      rewrite Nat2Z.id. erewrite nth_lookup_Some by eauto. f_equal. lia. }
    assert (Hi : (Z.to_nat (index v) < length (result v))%nat) by lia.
    assert (Htake : take (S (Z.to_nat (index v)))
                      (<[Z.to_nat (index v) := Some (bit_char c shift)]> (result v))
                    = take (Z.to_nat (index v)) (result v) ++ [Some (bit_char c shift)]).
    { erewrite take_S_r by (apply list_lookup_insert_eq; exact Hi).
      rewrite take_insert_ge by lia. reflexivity. }
    destruct (pos_file v) as [|p f] eqn:Hpf; rewrite ?Hpf in *;
      cbn [length increasing_from] in *.
    + eexists. split; [reflexivity|]. cbn. split; [apply int_incr_small; lia|].
      left. split; [reflexivity|]. cbn.
      rewrite <- HE. cbn [map]. rewrite Hbit, <- Htake.
      symmetry. apply take_ge. rewrite length_insert. cbn [length] in Hlen. lia.
    + eexists. split; [reflexivity|]. cbn. split; [apply int_incr_small; lia|].
      right. unfold selecting. cbn.
      rewrite (int_incr_small (count v)) by lia.
      rewrite (int_incr_small (index v)) by lia.
      rewrite length_insert.
      repeat split; try reflexivity; try assumption; try lia; try apply Hinc.
      * apply Forall_inv_tail in Hb. exact Hb.
      * rewrite <- HE. cbn [map]. rewrite Hbit.
        replace (Z.to_nat (index v + 1)) with (S (Z.to_nat (index v))) by lia.
        rewrite Htake, <- app_assoc. reflexivity.
  - eexists. split; [reflexivity|]. cbn. split; [apply int_incr_small; lia|].
    right. unfold selecting. cbn. rewrite (int_incr_small (count v)) by lia.
    repeat split; auto; lia.
Qed.

Lemma count_incr_result v : result (count_incr v) = result v.
Proof using Type. reflexivity. Qed.

(** One byte: the [for] loop of lines 52-60, entered with [n] bits of
    the byte still to examine. *)
Lemma for_shift_spec c (j : nat) :
  B !! j = Some c ->
  forall n v,
    (n <= 8)%nat ->
    selecting B E v ->
    count v = 8 * Z.of_nat j + (8 - Z.of_nat n) ->
    exists v',
      for_shift n c v = inl v' /\
      (selected E v' \/ (selecting B E v' /\ count v' = 8 * Z.of_nat (S j))).
Proof using B_fits.
  intros Hc. induction n as [|n IH]; intros v Hn HS Hcnt.
  - exists v. split; [reflexivity|]. right. split; [exact HS|]. lia.
  - destruct (select_step c (Z.of_nat n) j v HS Hc ltac:(lia) ltac:(lia))
      as (v1 & Hsel & Hcnt1 & Hv1).
    cbn [for_shift]. destruct HS as (Hnl & _). rewrite Hnl, Hsel.
    destruct Hv1 as [Hdone|Hgo].
    + exists (count_incr v1). split; [|left; exact Hdone].
      apply for_shift_finished. apply Hdone.
    + apply IH; [lia | exact Hgo | lia].
Qed.

(** The [while] loop from a byte boundary on. *)
Lemma while_spec :
  forall mem (j : nat) v,
    drop j B = mem ->
    selecting B E v ->
    count v = 8 * Z.of_nat j ->
    while_nextLine mem v = Key E.
Proof using B_fits.
  induction mem as [|c mem IH]; intros j v Hd HS Hcnt.
  - exfalso. apply drop_nil_inv in Hd.
    destruct HS as (_ & _ & [Hlo _] & Hb & _).
    apply Forall_inv in Hb. lia.
  - assert (Hc : B !! j = Some c).
    { rewrite <- (Nat.add_0_r j), <- lookup_drop, Hd. reflexivity. }
    assert (Hd' : drop (S j) B = mem).
    { erewrite drop_S in Hd by exact Hc. congruence. }
    destruct (for_shift_spec c j Hc 8%nat v ltac:(lia) HS ltac:(lia))
      as (v' & Hfor & Hv').
    cbn [while_nextLine]. destruct HS as (Hnl & Hcf & _).
    rewrite Hnl, Hcf, Hfor.
    destruct Hv' as [[Hn' Hr']|[HS' Hcnt']].
    + rewrite while_finished by exact Hn'. congruence.
    + exact (IH (S j) v' Hd' HS' Hcnt').
Qed.
End Selection.

Lemma bit_at_app body tail p :
  0 <= p < 8 * Z.of_nat (length body) -> bit_at (body ++ tail) p = bit_at body p.
Proof.
  intros Hp. unfold bit_at. f_equal. apply app_nth1.
  apply Nat2Z.inj_lt. rewrite Z2Nat.id by (apply Z.div_pos; lia).
  apply Z.div_lt_upper_bound; lia.
Qed.

Lemma increasing_from_lower lo l p : increasing_from lo l -> In p l -> lo <= p.
Proof.
  revert lo. induction l as [|q l IH]; intros lo H Hin; [destruct Hin|].
  destruct H as [Hq Hl]. destruct Hin as [->|Hin]; [exact Hq|].
  specialize (IH _ Hl Hin). lia.
Qed.

(** C4, as the code has it.  The extractor validates nothing and has no
    error result.  What holds is the contract: when the position list is
    non-empty and strictly increasing, has exactly key-size entries and
    names only bits of the bytes that follow the first comma, every
    character is written inside the array and the extractor returns the
    array fully written, entry [k] being the bit at the [k]-th position
    (most significant bit first). *)
Theorem C4_valid_positions_give_the_key pre body positions key_size :
  ~ In comma pre ->
  positions <> [] ->
  increasing_from 0 positions ->
  Forall (fun p => p < 8 * Z.of_nat (length body)) positions ->
  Z.of_nat (length positions) = key_size ->
  key_size <= INT_MAX ->
  8 * (Z.of_nat (length body) + 1) <= INT_MAX ->
  extract_key (pre ++ comma :: body) positions key_size
  = Key (map (fun p => Some (bit_at body p)) positions).
Proof.
  intros Hpre Hne Hinc Hb Hlen Hks Hfit.
  unfold extract_key, c_str_mem.
  replace (key_size <? 0) with false by (symmetry; apply Z.ltb_ge; lia).
  rewrite <- app_assoc. cbn [app].
  rewrite skip_to_comma by (auto; destruct positions; reflexivity).
  destruct positions as [|p0 ps]; [congruence|].
  rewrite (while_spec (body ++ [zero])
             (map (fun p => Some (bit_at (body ++ [zero]) p)) (p0 :: ps))
             ltac:(rewrite length_app; cbn [length]; lia)
             (body ++ [zero]) 0%nat); try reflexivity.
  - f_equal. apply map_ext_in. intros p Hp. f_equal. apply bit_at_app.
    split; [exact (increasing_from_lower 0 _ p Hinc Hp)|].
    rewrite Forall_forall in Hb. apply Hb, list_elem_of_In, Hp.
  - unfold selecting. cbn. rewrite length_replicate.
    repeat split; try reflexivity; try apply Hinc; try lia.
    + eapply Forall_impl; [exact Hb|]. cbn. intros p Hp.
      rewrite length_app. cbn [length]. lia.
    + cbn [length] in Hlen. lia.
Qed.

Lemma C4_witness :
  extract_key (["x"; "x"]%char ++ comma :: ["065"; "000"]%char) [0; 7; 8] 3
  = Key (map (fun p => Some (bit_at ["065"; "000"]%char p)) [0; 7; 8]).
Proof.
  apply (C4_valid_positions_give_the_key ["x"; "x"]%char ["065"; "000"]%char [0; 7; 8] 3).
  - intros [H|[H|[]]]; discriminate H.
  - discriminate.
  - cbn. lia.
  - repeat constructor.
  - reflexivity.
  - unfold INT_MAX. lia.
  - cbn. unfold INT_MAX. lia.
Defined.

(** C4 as stated fails: no input is rejected.  With one position and key
    size 3 the extractor returns normally, two of the three characters
    never written; with the non-increasing positions 5, 2 it selects bit 5
    and then reads past the capture looking for bit 2; with three positions
    and key size 2 the third character is assigned outside the array. *)
Lemma C4_counterexample :
  extract_key [","; "A"]%char [0] 3 = Key [Some "0"%char; None; None] /\
  extract_key [","; "A"]%char [5; 2] 2
  = ReadOverrun {| nextBit := 2; pos_file := []; count := 16; index := 1;
                   commaFound := true; nextLine := true;
                   result := [Some "0"%char; None] |} /\
  extract_key [","; "A"]%char [0; 1; 2] 2
  = WriteOverrun {| nextBit := 2; pos_file := []; count := 2; index := 2;
                    commaFound := true; nextLine := true;
                    result := [Some "0"%char; Some "1"%char] |}.
Proof. vm_compute. repeat split. Qed.

End KeyExtractorFacts.

(* ================================================================== *)
(** * Further properties of the session engine *)

(** ** Framing in general *)

(** X1.  Whatever the payload, the capture of START, payload, END scanned
    from outside capture state is the payload itself, provided no pair of
    neighbouring bytes other than the two sentinels completes a marker and
    the byte counter stays inside the [int] range.  START immediately
    followed by END gives the empty capture. *)
Theorem X1_framed_payload_is_captured M P e k payload :
  classify M " "%char (START_1 M) = None ->
  quiet M (START_2 M) (payload ++ [END_1 M]) ->
  classify M (END_1 M) (END_2 M) = Some END ->
  Z.of_nat (length payload) + 2 <= INT_MAX ->
  data (pufOutput (final (loop M P (repeat Scan (length payload + 4))
                            (session_start e (new_sink k) (framed M payload)))))
  = payload.
Proof. apply capture_is_payload. Qed.

Lemma X1_witness :
  data (pufOutput (final (loop example_macros (example_parser 0)
                            (repeat Scan (length (@nil ascii) + 4))
                            (session_start false (new_sink FileSink)
                               (framed example_macros [])))))
  = [].
Proof.
  apply (X1_framed_payload_is_captured example_macros (example_parser 0)
           false FileSink []).
  - reflexivity.
  - cbn. auto.
  - reflexivity.
  - cbn. unfold INT_MAX. lia.
Defined.

(** ** The capture only grows *)

Lemma step_sink M P a s :
  let s' := step M P a s in
  data (pufOutput s') = data (pufOutput s) \/
  (data (pufOutput s') = data (pufOutput s) ++ [lastChar s] /\
   writePuf s' = true /\ 1 < charCount s /\ is_open (pufOutput s) = true).
Proof.
  destruct s as [rn lc i wp ir cc inp jn orp ex cnt [pk pop pd pf] st tr].
  destruct a as [|k]; cbn [step]; [scan_cases | tick_cases]; auto.
  all: unfold sink_put, sink_flush, sink_close; cbn; split_tests; auto.
  all: subst; cbn in *; try discriminate.
  all: right; repeat split; auto; apply Z.ltb_lt; assumption.
Qed.

Lemma sink_grows_step M P d0 a s :
  (exists l, data (pufOutput s) = d0 ++ l) ->
  exists l, data (pufOutput (step M P a s)) = d0 ++ l.
Proof.
  intros [l Hl].
  destruct (step_sink M P a s) as [E|(E & _)]; rewrite E, Hl.
  - eauto.
  - exists (l ++ [lastChar s]). symmetry; apply app_assoc.
Qed.

(** X3.  Captured bytes are never removed or rewritten.  A step leaves
    the sink's content alone or appends the previous byte, and it appends
    only when it ends in capture state with two bytes already counted and
    the sink open.  So the content of the sink at the start of a pass is a
    prefix of its content at any later point of the pass; in single-shot
    mode, where all rounds share one stream, the same holds across rounds:
    the bytes of a capture cut short by PANIC stay in the stream that
    [gen_key] reads. *)
Theorem X3_capture_only_grows M P :
  (forall a s,
      let s' := step M P a s in
      data (pufOutput s') = data (pufOutput s) \/
      (data (pufOutput s') = data (pufOutput s) ++ [lastChar s] /\
       writePuf s' = true /\ 1 < charCount s /\ is_open (pufOutput s) = true)) /\
  (forall sch s,
      exists l, data (pufOutput (final (loop_from M P sch s))) = data (pufOutput s) ++ l) /\
  (forall sch s,
      exists l, data (pufOutput (run_final (run_single M P sch s)))
                = data (pufOutput s) ++ l).
Proof.
  split; [apply step_sink|]. split.
  - intros sch s.
    pose proof (loop_from_inv M P
                  (fun s1 => exists l, data (pufOutput s1) = data (pufOutput s) ++ l)
                  (sink_grows_step M P _)
                  ltac:(intros s1 H1 _; exact H1) sch s) as H.
    specialize (H ltac:(exists []; symmetry; apply app_nil_r)).
    destruct (loop_from M P sch s); cbn; tauto.
  - intros sch s.
    pose proof (session_inv SingleShot M P
                  (fun s1 => exists l, data (pufOutput s1) = data (pufOutput s) ++ l)
                  (fun s1 => exists l, data (pufOutput s1) = data (pufOutput s) ++ l)
                  ltac:(intros s1 H1; exact H1)
                  (sink_grows_step M P _)
                  ltac:(intros s1 H1 _; exact H1)
                  ltac:(intros s1 H1 _ _; exact H1) sch s) as H.
    specialize (H ltac:(exists []; symmetry; apply app_nil_r)).
    change (session SingleShot M P sch s) with (run_single M P sch s) in H.
    destruct (run_single M P sch s); cbn; tauto.
Qed.

(** ** The log shows only printable characters *)

Lemma shown_printable c : printable (shown c) = true.
Proof. destruct c as [[] [] [] [] [] [] [] []]; reflexivity. Qed.

Lemma shown_keeps_printable c : printable c = true -> shown c = c.
Proof. destruct c as [[] [] [] [] [] [] [] []]; cbn; intros H; try discriminate H; reflexivity. Qed.

Lemma log_clean_step M P a s : log_clean (trace s) -> log_clean (trace (step M P a s)).
Proof.
  unfold log_clean.
  destruct s as [rn lc i wp ir cc inp jn orp ex cnt po st tr].
  destruct a as [|k]; cbn [step]; [scan_cases | tick_cases]; intros H; auto.
  all: cbn; split_tests; auto.
  all: rewrite ?Forall_app; repeat split; auto.
  all: repeat constructor; apply shown_printable.
Qed.

Lemma log_clean_begin d P s :
  log_clean (trace s) -> log_clean (trace (enter_loop (begin_round d P s))).
Proof.
  unfold log_clean. destruct d; cbn; intros H.
  all: rewrite ?Forall_app; repeat split; auto; repeat constructor.
Qed.

(** X4.  [log_live] never puts a raw device byte on the terminal: what it
    shows is printable, a line feed or a carriage return (every other byte
    is shown as a space), and a byte that is already one of these is shown
    unchanged.  Hence a session, in either mode and under any schedule and
    device output, adds only such characters to the live log. *)
Theorem X4_live_log_is_printable d M P sch s :
  log_clean (trace s) ->
  log_clean (trace (run_final (session d M P sch s))) /\
  (forall c, printable (shown c) = true) /\
  (forall c, printable c = true -> shown c = c).
Proof.
  intros H. split; [|split; [apply shown_printable | apply shown_keeps_printable]].
  pose proof (session_inv d M P (fun s1 => log_clean (trace s1))
                (fun s1 => log_clean (trace s1))
                (log_clean_begin d P) (log_clean_step M P)) as HI.
  cbv beta in HI.
  specialize (HI ltac:(intros s1 H1 _; unfold log_clean in *; cbn;
                       rewrite Forall_app; split; auto; repeat constructor)
                 ltac:(intros s1 H1 _ _; exact H1) sch s H).
  destruct (session d M P sch s); cbn; tauto.
Qed.

Lemma X4_witness :
  log_clean (trace (run_final (session MultiRound example_macros (example_parser 1)
                                 (repeat Scan 9)
                                 (session_start false (new_sink FileSink)
                                    panic_then_capture_rx)))).
Proof.
  apply (X4_live_log_is_printable MultiRound example_macros (example_parser 1)
           (repeat Scan 9)
           (session_start false (new_sink FileSink) panic_then_capture_rx)).
  constructor.
Defined.

(** ** The power line *)

Lemma line_high_app b tr1 tr2 :
  line_high b (tr1 ++ tr2) = line_high (line_high b tr1) tr2.
Proof.
  revert b. induction tr1 as [|e tr1 IH]; intros b; [reflexivity|].
  destruct e; cbn; apply IH.
Qed.

Lemma line_high_step M P a s b :
  line_high b (trace (step M P a s)) = line_high b (trace s).
Proof.
  destruct s as [rn lc i wp ir cc inp jn orp ex cnt po st tr].
  destruct a as [|k]; cbn [step]; [scan_cases | tick_cases]; auto.
  all: cbn; split_tests; auto.
  all: rewrite ?line_high_app; reflexivity.
Qed.

Lemma line_high_begin d P s b :
  line_high b (trace (enter_loop (begin_round d P s))) = false.
Proof. destruct d; cbn; rewrite ?line_high_app; reflexivity. Qed.

(** X11.  Whatever the mode, the schedule and the device output, and
    whatever the level of the power line before the session: at the point
    where the session is observed the last write to the power pin was LOW,
    that is, the device is powered whenever serial bytes are scanned and
    also after the driver has stopped.  The pin is written by [reset]
    only. *)
Theorem X11_device_is_powered_during_a_pass d M P sch s b :
  line_high b (trace (run_final (session d M P sch s))) = false /\
  (forall a s1, line_high b (trace (step M P a s1)) = line_high b (trace s1)).
Proof.
  split; [|intros; apply line_high_step].
  pose proof (session_inv d M P (fun _ => True)
                (fun s1 => line_high b (trace s1) = false)) as H.
  cbv beta in H.
  specialize (H ltac:(intros; apply line_high_begin)
                ltac:(intros a s1 H1; rewrite line_high_step; exact H1)
                ltac:(intros s1 H1 _; cbn; rewrite line_high_app; exact H1)
                ltac:(intros; exact I) sch s I).
  destruct (session d M P sch s); cbn; tauto.
Qed.

(** ** File indices *)





(** ** The multi-round driver without a maximum *)

(** With no maximum configured [running] is never cleared. *)
Lemma step_running_without_max M P a s :
  getMaxMeasures P <= 0 -> running s = true -> running (step M P a s) = true.
Proof.
  intros Hmax Hr.
  destruct (step_running M P a s) as [(_ & _ & ->)|(_ & _ & ->)]; [exact Hr|].
  replace (0 <? getMaxMeasures P) with false by (symmetry; apply Z.ltb_ge; lia).
  exact Hr.
Qed.

(** X2.  Without a positive maximum round count the multi-round driver
    never leaves its loop: every pass returns true, whatever markers
    arrive, PANIC and FINISHED included. *)
Theorem X2_multi_round_without_max_never_stops M P sch s :
  getMaxMeasures P <= 0 ->
  never_stops (run M P sch s).
Proof.
  intros Hmax.
  pose proof (session_inv MultiRound M P (fun _ => True)
                (fun s => running s = true)) as H.
  specialize (H ltac:(intros; reflexivity)).
  specialize (H ltac:(intros a s1 H1; apply step_running_without_max; assumption)).
  specialize (H ltac:(intros s1 H1 _; exact H1)).
  specialize (H ltac:(intros; exact I) sch s I).
  change (session MultiRound M P sch s) with (run M P sch s) in H.
  destruct (run M P sch s) as [s'|s'|s']; cbn; auto.
  destruct H as (Hr & _ & Ha). cbn in Ha. congruence.
Qed.

Lemma X2_witness :
  never_stops (run example_macros (example_parser 0) (repeat Scan 9)
                 (session_start false (new_sink FileSink) panic_then_capture_rx)).
Proof.
  apply (X2_multi_round_without_max_never_stops example_macros (example_parser 0)).
  cbn. lia.
Defined.

(** ** The injector thread *)

(** X5.  Cancellation.  When FINISHED or PANIC has set the cancellation
    and the injector thread is polling with no may-send signal pending, the
    thread returns at its next test of the cancellation: after two steps of
    the thread the join completes, the pass returns, and the parameters that
    were left are not sent. *)
Theorem X5_cancelled_injector_sends_nothing M P s m p r pc :
  joining s = Some m -> interrupt s = true -> expectInput s = false ->
  input s = Some (Running p r pc) ->
  pc = PollExpect \/ pc = PollInterrupt ->
  exists s',
    loop_from M P [Tick 0; Tick 0; Scan] s = Returned s' [] /\
    input s' = None /\ joining s' = None /\
    tx_bytes (trace s') = tx_bytes (trace s).
Proof.
  intros Hj Hi He Hin Hpc.
  assert (E : tick 0 (tick 0 s) = set_input (Some Finished) s).
  { destruct s as [rn lc i wp ir cc inp jn orp ex cnt po st tr].
    cbn in *. subst. destruct Hpc as [-> | ->]; reflexivity. }
  assert (R0 : returned s = false) by (unfold returned; rewrite Hj, Hi; reflexivity).
  assert (R1 : returned (tick 0 s) = false).
  { destruct s as [rn lc i wp ir cc inp jn orp ex cnt po st tr].
    cbn in *. subst. destruct Hpc as [-> | ->]; reflexivity. }
  assert (R2 : returned (tick 0 (tick 0 s)) = false).
  { rewrite E. unfold returned. cbn. rewrite Hj, Hi. reflexivity. }
  assert (S : scan M P (tick 0 (tick 0 s))
              = join_returns M m (set_input (Some Finished) s)).
  { rewrite E. unfold scan. cbn [joining input set_input]. rewrite Hj. reflexivity. }
  cbn [loop_from step]. rewrite R0, R1, R2, S. unfold join_returns.
  set (s3 := after_join m _).
  destruct (deferred_write_framing M s3) as (E1 & E2 & E3 & _).
  destruct (deferred_write_frame M s3) as (_ & _ & _ & _ & _ & E6).
  assert (H3 : joining s3 = None /\ interrupt s3 = true /\ input s3 = None /\
               tx_bytes (trace s3) = tx_bytes (trace s)).
  { subst s3. destruct m; cbn; auto. }
  destruct H3 as (J3 & I3 & N3 & T3).
  unfold returned. rewrite E1, E2, J3, I3. cbn [andb].
  eexists. split; [reflexivity|]. cbn.
  rewrite E1, E3, J3, N3. repeat split.
  rewrite tx_bytes_app, E6, T3. cbn. apply app_nil_r.
Qed.

Lemma X5_witness :
  let s := final (loop example_macros (example_parser 0) (repeat Scan 4)
                    (session_start false (new_sink MemorySink)
                       [LOADED_1 example_macros; LOADED_2 example_macros;
                        FINISHED_1 example_macros; FINISHED_2 example_macros])) in
  exists s',
    loop_from example_macros (example_parser 0) [Tick 0; Tick 0; Scan] s
      = Returned s' [] /\
    input s' = None /\ joining s' = None /\
    tx_bytes (trace s') = tx_bytes (trace s).
Proof.
  apply (X5_cancelled_injector_sends_nothing example_macros (example_parser 0)
           _ FINISHED "ab"%string [] PollExpect); try reflexivity.
  left. reflexivity.
Defined.

Lemma puts_count_app tr1 tr2 :
  puts_count (tr1 ++ tr2) = (puts_count tr1 + puts_count tr2)%nat.
Proof.
  induction tr1 as [|e tr1 IH]; [reflexivity|].
  destruct e; cbn; rewrite IH; reflexivity.
Qed.

#[local] Arguments pending : simpl never.
#[local] Arguments credit : simpl never.
#[local] Arguments signal_seen : simpl never.

Lemma handshake_bound_step M P a0 b0 a s :
  handshake_bound a0 b0 s -> handshake_bound a0 b0 (step M P a s).
Proof.
  unfold handshake_bound.
  destruct s as [rn lc i wp ir cc inp jn orp ex cnt po st tr].
  cbn [orphans input expectInput trace]. intros H.
  destruct a as [|k]; cbn [step]; [scan_cases | tick_cases]; auto.
  all: cbn; intros Ho.
  all: try (destruct orp; discriminate Ho).
  all: try match goal with
           | L : _ !! _ = Some _ |- _ =>
               apply lookup_lt_Some in L; apply (f_equal length) in Ho;
               rewrite length_insert in Ho; cbn in Ho; lia
           end.
  all: specialize (H Ho); destruct H as [HJ HB]; subst.
  all: rewrite ?puts_count_app, ?fired_count_app.
  all: unfold pending, credit, signal_seen in *; cbn in *.
  all: try (split; [auto | lia]).
  all: try (destruct ex; split; auto; lia).
  all: try (destruct (getParams P); cbn; split; auto; lia).
  all: try (destruct inp as [[? ? []|]|]; cbn in *; auto; split; auto; lia).
  destruct rest; cbn; split; auto; lia.
Qed.

(** X6.  With a single injector thread the handshake is respected: the
    injector calls [serialPuts] at most twice (the parameter and the
    carriage return) for every ASK_INPUT marker the scanner has seen, plus
    twice if the may-send flag was already set at the start.  This holds in
    either mode, under every interleaving of the two threads and for every
    device output, as long as no second LOADED of a pass has overwritten
    the handle of a live thread ([orphans] is still empty at the end). *)
Theorem X6_one_parameter_per_request d M P sch s :
  input s = None -> orphans s = [] ->
  let s' := run_final (session d M P sch s) in
  orphans s' = [] ->
  (puts_count (trace s') + 2 * fired_count ASK_INPUT (trace s)
   <= puts_count (trace s) + 2 * fired_count ASK_INPUT (trace s')
      + credit (expectInput s))%nat.
Proof.
  intros Hi Ho s' Ho'.
  set (a0 := fired_count ASK_INPUT (trace s)).
  set (b0 := (puts_count (trace s) + credit (expectInput s))%nat).
  pose proof (session_inv d M P (handshake_bound a0 b0) (handshake_bound a0 b0)) as H.
  specialize (H ltac:(
    intros s1 H1 Ho1;
    assert (Ho2 : orphans s1 = []) by (destruct d; exact Ho1);
    destruct (H1 Ho2) as [_ HB];
    destruct (begin_round_counters d P s1) as [_ Hm];
    split; [exact I|]; rewrite Hm;
    replace (puts_count (trace (enter_loop (begin_round d P s1))))
      with (puts_count (trace s1))
      by (destruct d; cbn; rewrite ?puts_count_app; cbn; lia);
    replace (expectInput (enter_loop (begin_round d P s1))) with (expectInput s1)
      by (destruct d; reflexivity);
    replace (input (enter_loop (begin_round d P s1))) with (@None Thread)
      by (destruct d; reflexivity);
    unfold pending in *; lia)).
  specialize (H (handshake_bound_step M P a0 b0)).
  specialize (H ltac:(
    intros s1 H1 _ Ho1; destruct (H1 Ho1) as [HJ HB]; split; [exact HJ|];
    cbn; rewrite puts_count_app, fired_count_app; cbn; lia)).
  specialize (H ltac:(intros s1 H1 _ _; exact H1) sch s).
  specialize (H ltac:(
    intros _; rewrite Hi; split; [exact I|]; unfold pending, a0, b0; lia)).
  assert (HB : handshake_bound a0 b0 s').
  { unfold s'. destruct (session d M P sch s); cbn; tauto. }
  destruct (HB Ho') as [_ HB'].
  unfold a0, b0 in HB'. lia.
Qed.

Lemma X6_witness :
  let s := session_start false (new_sink MemorySink) ask_then_loaded_rx in
  let s' := run_final (session SingleShot example_macros (example_parser 0)
                         (repeat Scan 4 ++ repeat (Tick 0) 9) s) in
  orphans s' = [] /\
  (puts_count (trace s') + 2 * fired_count ASK_INPUT (trace s)
   <= puts_count (trace s) + 2 * fired_count ASK_INPUT (trace s')
      + credit (expectInput s))%nat.
Proof.
  split; [reflexivity|].
  apply (X6_one_parameter_per_request SingleShot example_macros (example_parser 0)
           (repeat Scan 4 ++ repeat (Tick 0) 9)
           (session_start false (new_sink MemorySink) ask_then_loaded_rx));
    reflexivity.
Defined.

(** The bound is reached with one injector, and it needs the
    condition: after a second LOADED two injectors poll the same flag, both
    can see one request before either clears it, and the parameter is sent
    twice. *)
Example two_injectors_answer_one_request :
  let one := run_final (session SingleShot example_macros (example_parser 0)
                          (repeat Scan 4 ++ repeat (Tick 0) 9)
                          (session_start false (new_sink MemorySink) ask_then_loaded_rx)) in
  let two := run_final (session SingleShot example_macros (example_parser 0)
                          (repeat Scan 6 ++ [Tick 0; Tick 1]
                             ++ repeat (Tick 0) 8 ++ repeat (Tick 1) 8)
                          (session_start false (new_sink MemorySink) loaded_twice_rx)) in
  (fired_count ASK_INPUT (trace one) = 1 /\ puts_count (trace one) = 2 /\
   orphans one = [])%nat /\
  (fired_count ASK_INPUT (trace two) = 1 /\ puts_count (trace two) = 4 /\
   length (orphans two) = 1)%nat.
Proof. vm_compute. repeat split. Qed.

(** A blocked join with a polling thread stays as it is, whichever thread
    is scheduled. *)
Lemma join_deadlock_step M P a s :
  join_deadlock s ->
  join_deadlock (step M P a s) /\
  stream (step M P a s) = stream s /\ trace (step M P a s) = trace s.
Proof.
  destruct s as [rn lc i wp ir cc inp jn orp ex cnt po st tr].
  unfold join_deadlock. cbn.
  intros ([m Hm] & Hi & He & Ho & p & r & Hin). subst.
  destruct Hin as [Hin|Hin]; subst;
    destruct a as [|[|j]]; cbn; repeat split; eauto.
Qed.

(** X7.  If START arrives while the injector thread still polls for a
    may-send signal, the pass is stuck: the scanner thread waits in
    [input->join()] for a thread that waits for a signal only the scanner
    could give.  However the two threads are scheduled, no further byte is
    taken off the line, nothing more is logged or sent, and [loop] does not
    return. *)
Theorem X7_START_while_injector_polls_deadlocks M P sch s :
  join_deadlock s ->
  exists s',
    loop_from M P sch s = Pending s' /\ join_deadlock s' /\
    stream s' = stream s /\ trace s' = trace s.
Proof.
  revert s. induction sch as [|a sch IH]; intros s HD.
  - exists s. cbn. unfold returned.
    pose proof HD as (_ & Hi & _). rewrite Hi. cbn. auto.
  - destruct (join_deadlock_step M P a s HD) as (HD' & Hs & Ht).
    destruct (IH _ HD') as (s' & HL & HD'' & Hs' & Ht').
    exists s'. cbn. unfold returned.
    pose proof HD as (_ & Hi & _). rewrite Hi. cbn.
    split; [exact HL|]. split; [exact HD''|]. split; congruence.
Qed.

(** LOADED and then START with no ASK_INPUT in between: after the four
    bytes the pass is stuck, the fifth byte is never read. *)
Lemma X7_witness :
  let s := final (loop example_macros (example_parser 0) (repeat Scan 4)
                    (session_start false (new_sink MemorySink) loaded_then_start_rx)) in
  exists s',
    loop_from example_macros (example_parser 0)
      [Tick 0; Scan; Scan; Tick 0; Tick 0; Scan] s = Pending s' /\
    join_deadlock s' /\ stream s' = stream s /\ trace s' = trace s.
Proof.
  apply (X7_START_while_injector_polls_deadlocks example_macros (example_parser 0)).
  vm_compute. repeat split; eauto.
Defined.

(* ================================================================== *)
(** * From the serial line to the key *)

(** The marker chain moves the round counter at END only. *)
Lemma branch_count M P om s :
  count (branch M P om s)
  = match om with
    | Some END => int_incr (count s)
    | _ => count s
    end.
Proof.
  assert (D : forall s1, count (deferred_write M s1) = count s1)
    by (intros s1; apply deferred_write_frame).
  destruct om as [m|]; [|apply D].
  unfold branch. destruct m; cbn [has_join before_join after_join].
  - destruct (input _); [|rewrite D]; reflexivity.
  - rewrite D. destruct (_ && _); reflexivity.
  - rewrite D. unfold spawn.
    destruct (input (emit (Fired LOADED) s)); reflexivity.
  - rewrite D. reflexivity.
  - destruct (input _); [|rewrite D]; reflexivity.
  - destruct (input _); [|rewrite D]; reflexivity.
Qed.

(** The round counter moves at END only. *)
Lemma scan_count M P s c rest :
  joining s = None -> interrupt s = false -> stream s = c :: rest ->
  count (scan M P s)
  = match classify M (lastChar s) c with
    | Some END => int_incr (count s)
    | _ => count s
    end.
Proof.
  intros Hj Hi Hs. unfold scan. rewrite Hj, Hi, Hs. cbv zeta.
  rewrite branch_count.
  change (writePuf (set_in_ c (set_stream rest s))) with (writePuf s).
  destruct (writePuf s); reflexivity.
Qed.

Lemma framing_count M P s lc wp cc k c rest :
  framing s lc wp cc k (c :: rest) ->
  count (scan M P s)
  = match classify M lc c with
    | Some END => int_incr (count s)
    | _ => count s
    end.
Proof.
  intros (Hj & Hi & _ & Hs & Hlc & _). rewrite <- Hlc.
  apply (scan_count M P s c rest Hj Hi Hs).
Qed.

Lemma plain_bytes_counted M P l :
  forall sch s lc cc k rest,
    framing s lc true cc k (l ++ rest) ->
    quiet M lc l -> 2 <= cc -> cc + Z.of_nat (length l) <= INT_MAX ->
    exists s',
      loop_from M P (repeat Scan (length l) ++ sch) s = loop_from M P sch s' /\
      framing s' (List.last l lc) true (cc + Z.of_nat (length l))
        (sink_puts (removelast (lc :: l)) k) rest /\
      count s' = count s.
Proof.
  induction l as [|c l IH]; intros sch s lc cc k rest HF HQ Hcc Hfit.
  - exists s. cbn. rewrite Z.add_0_r. auto.
  - destruct HQ as [Hc HQ].
    pose proof (framing_plain M P s lc true cc k c (l ++ rest) HF Hc) as HF'.
    pose proof (framing_count M P s lc true cc k c (l ++ rest) HF) as HC.
    rewrite Hc in HC.
    cbn [andb] in HF'. replace (1 <? cc) with true in HF' by (symmetry; apply Z.ltb_lt; lia).
    rewrite int_incr_small in HF' by (cbn [length] in Hfit; lia).
    destruct (IH sch (scan M P s) c (cc + 1) (sink_put lc k) rest HF' HQ)
      as (s' & HL & HF'' & HC'');
      [lia | cbn [length] in Hfit; lia |].
    exists s'. split; [|split].
    + cbn [length repeat app]. erewrite loop_from_Scan by exact HF. exact HL.
    + rewrite last_cons.
      replace (cc + Z.of_nat (length (c :: l))) with (cc + 1 + Z.of_nat (length l))
        by (cbn [length]; lia).
      exact HF''.
    + congruence.
Qed.

(** A framed payload scanned from outside capture state, with more bytes
    to come: the capture is the payload and the round counter has moved
    by one. *)
Lemma framed_then M P payload sch s kd rest :
  framing s " "%char false 0 (new_sink kd) (framed M payload ++ rest) ->
  classify M " "%char (START_1 M) = None ->
  quiet M (START_2 M) (payload ++ [END_1 M]) ->
  classify M (END_1 M) (END_2 M) = Some END ->
  Z.of_nat (length payload) + 2 <= INT_MAX ->
  exists s',
    loop_from M P (repeat Scan (length payload + 4) ++ sch) s = loop_from M P sch s' /\
    framing s' (END_2 M) false (Z.of_nat (length payload) + 2)
      (sink_close (sink_flush (sink_puts payload (new_sink kd)))) rest /\
    count s' = int_incr (count s).
Proof.
  intros HF0 H1 HQ HE Hfit.
  unfold framed in HF0. rewrite <- !app_assoc in HF0. cbn [app] in HF0.
  replace (payload ++ END_1 M :: END_2 M :: rest)
    with ((payload ++ [END_1 M]) ++ END_2 M :: rest) in HF0
    by (rewrite <- app_assoc; reflexivity).
  pose proof (framing_plain M P _ _ _ _ _ _ _ HF0 H1) as HF1. cbn [andb] in HF1.
  pose proof (framing_count M P _ _ _ _ _ _ _ HF0) as HC1. rewrite H1 in HC1.
  pose proof (framing_START M P _ _ _ _ _ _ _ HF1 (classify_START M)) as HF2.
  pose proof (framing_count M P _ _ _ _ _ _ _ HF1) as HC2.
  rewrite classify_START in HC2.
  change (1 <? 0) with false in HF2. change (int_incr 0) with 1 in HF2.
  replace (length payload + 4)%nat with (S (S (length (payload ++ [END_1 M]) + 1)))
    by (rewrite length_app; cbn; lia).
  cbn [repeat app]. erewrite loop_from_Scan by exact HF0. erewrite loop_from_Scan by exact HF1.
  destruct (payload ++ [END_1 M]) as [|x l] eqn:Epl.
  { destruct payload; discriminate. }
  destruct HQ as [Hx HQ].
  pose proof (framing_plain M P _ _ _ _ _ _ _ HF2 Hx) as HF3.
  pose proof (framing_count M P _ _ _ _ _ _ _ HF2) as HC3. rewrite Hx in HC3.
  change (true && (1 <? 1)) with false in HF3. change (int_incr 1) with 2 in HF3.
  assert (Hlen : length (x :: l) = S (length payload)).
  { rewrite <- Epl, length_app. cbn. lia. }
  cbn [length] in Hlen.
  destruct (plain_bytes_counted M P l (Scan :: sch) _ _ _ _ _ HF3 HQ ltac:(lia) ltac:(lia))
    as (s' & HL & HF4 & HC4).
  cbn [length Nat.add repeat app]. erewrite loop_from_Scan by exact HF2.
  rewrite repeat_app, <- app_assoc. cbn [repeat app]. rewrite HL.
  assert (Hlast : List.last l x = END_1 M).
  { rewrite <- (last_cons x l " "%char), <- Epl. apply last_last. }
  assert (Hrm : removelast (x :: l) = payload).
  { rewrite <- Epl. apply removelast_last. }
  rewrite Hlast, Hrm in HF4.
  pose proof (framing_END M P _ _ _ _ _ _ _ HF4 HE) as HF5.
  pose proof (framing_count M P _ _ _ _ _ _ _ HF4) as HC5. rewrite HE in HC5.
  erewrite loop_from_Scan by exact HF4.
  exists (scan M P s'). split; [reflexivity|]. split.
  - replace (Z.of_nat (length payload) + 2) with (2 + Z.of_nat (length l)) by lia.
    exact HF5.
  - congruence.
Qed.

(** FINISHED outside a capture and with no injector: the pass is left,
    nothing is written. *)
Lemma framing_FINISHED M P s lc cc k c rest :
  framing s lc false cc k (c :: rest) ->
  classify M lc c = Some FINISHED ->
  returned (scan M P s) = true /\ data (pufOutput (scan M P s)) = data k.
Proof.
  intros (Hj & Hi & Hin & Hs & Hlc & Hwp & Hcc & Hk & Ho & Hd) Hc.
  destruct (scan_takes_byte M P s c rest Hj Hi Hs)
    as (s1 & -> & Hj1 & Hi1 & Hin1 & Hs1 & Hlc1 & Hc1 & Hwp1 & Hcc1 & Hp1 & _).
  rewrite Hlc, Hc. unfold branch. cbn [has_join before_join after_join].
  replace (input (set_interrupt true (emit (Fired FINISHED) s1))) with (@None Thread)
    by (cbn; congruence).
  destruct (deferred_write_framing M (set_interrupt true (emit (Fired FINISHED) s1)))
    as (E1 & E2 & E3 & E4 & E5 & E6 & E7 & E8 & E9 & E10).
  cbn in E1, E2, E10. unfold returned. rewrite E1, E2, E10, Hj1, Hwp1, Hwp, Hp1.
  cbn. auto.
Qed.

Lemma loop_from_returned M P sch s :
  returned s = true -> loop_from M P sch s = Returned (emit Endl s) sch.
Proof. intros H. destruct sch; cbn; rewrite H; reflexivity. Qed.

(** X13.  [gen_key] end to end.  When the device sends START, a payload,
    END and FINISHED (the payload and the bytes around it completing no
    further marker, no LOADED before), the single-shot session stops after
    that one pass and the bits are selected from exactly the payload: the
    result of [gen_key] is the result of the selection on the payload,
    whatever the positions and the key size are and whatever follows
    FINISHED on the line. *)
Theorem X13_gen_key_selects_from_the_payload
    M P e payload more sch positions key_size :
  classify M " "%char (START_1 M) = None ->
  quiet M (START_2 M) (payload ++ [END_1 M]) ->
  classify M (END_1 M) (END_2 M) = Some END ->
  classify M (END_2 M) (FINISHED_1 M) = None ->
  classify M (FINISHED_1 M) (FINISHED_2 M) = Some FINISHED ->
  Z.of_nat (length payload) + 2 <= INT_MAX ->
  gen_key M P e
    (framed M payload ++ [FINISHED_1 M; FINISHED_2 M] ++ more)
    (repeat Scan (length payload + 6) ++ sch) positions key_size
  = Some (KeyExtractor.extract_key payload positions key_size).
Proof.
  intros H1 HQ HE HF1 HF2 Hfit.
  unfold gen_key, run_single. cbn [run_single_rounds]. unfold loop.
  set (rx := framed M payload ++ [FINISHED_1 M; FINISHED_2 M] ++ more).
  set (s0 := enter_loop (reset P (session_start e (new_sink MemorySink) rx))).
  assert (HF0 : framing s0 " "%char false 0 (new_sink MemorySink) rx).
  { unfold framing. cbn. repeat split. }
  destruct (framed_then M P payload (Scan :: Scan :: sch) s0 MemorySink
              ([FINISHED_1 M; FINISHED_2 M] ++ more) HF0 H1 HQ HE Hfit)
    as (s1 & HL & HFa & HCa).
  replace (repeat Scan (length payload + 6) ++ sch)
    with (repeat Scan (length payload + 4) ++ Scan :: Scan :: sch).
  2:{ replace (length payload + 6)%nat with (length payload + 4 + 2)%nat by lia.
      rewrite (repeat_app Scan (length payload + 4) 2), <- app_assoc. reflexivity. }
  rewrite HL. cbn [app] in HFa.
  pose proof (framing_plain M P _ _ _ _ _ _ _ HFa HF1) as HFb.
  pose proof (framing_count M P _ _ _ _ _ _ _ HFa) as HCb. rewrite HF1 in HCb.
  cbn [andb] in HFb.
  destruct (framing_FINISHED M P _ _ _ _ _ _ HFb HF2) as [HR HD].
  pose proof (framing_count M P _ _ _ _ _ _ _ HFb) as HCc. rewrite HF2 in HCc.
  erewrite loop_from_Scan by exact HFa. erewrite loop_from_Scan by exact HFb.
  rewrite loop_from_returned by exact HR.
  replace (count (emit Endl (scan M P (scan M P s1)))) with 1
    by (cbn [emit set_trace count]; rewrite HCc, HCb, HCa; reflexivity).
  rewrite andb_false_r. f_equal. f_equal.
  cbn [emit set_trace pufOutput]. rewrite HD, data_close_flush.
  destruct (sink_puts_open payload (new_sink MemorySink) eq_refl) as (_ & -> & _).
  reflexivity.
Qed.

Lemma X13_witness :
  gen_key example_macros (example_parser 1) false
    (framed example_macros KeyExtractor.example_capture
       ++ [FINISHED_1 example_macros; FINISHED_2 example_macros] ++ [])
    (repeat Scan (length KeyExtractor.example_capture + 6) ++ []) [0; 7; 8] 3
  = Some (KeyExtractor.extract_key KeyExtractor.example_capture [0; 7; 8] 3).
Proof.
  apply (X13_gen_key_selects_from_the_payload example_macros (example_parser 1) false
           KeyExtractor.example_capture [] [] [0; 7; 8] 3).
  - reflexivity.
  - cbn. repeat split.
  - reflexivity.
  - reflexivity.
  - reflexivity.
  - cbn. unfold INT_MAX. lia.
Defined.

(* ================================================================== *)
(** * The key extractor on arbitrary input *)

Module KeySelectionFacts.
Import KeyExtractor KeyExtractorFacts KeySelection.

Lemma increasing_from_snoc lo l p :
  increasing_from lo l -> Forall (fun q => q < p) l -> lo <= p ->
  increasing_from lo (l ++ [p]).
Proof.
  revert lo. induction l as [|q l IH]; intros lo Hinc Hall Hlo; cbn.
  - auto.
  - destruct Hinc as [Hq Hl]. split; [exact Hq|].
    apply IH; [exact Hl | eapply Forall_inv_tail; exact Hall |].
    apply Forall_inv in Hall. lia.
Qed.

Section Progress.
Variables (B : list ascii) (ps : list Z) (K : nat).
Hypothesis B_fits : 8 * Z.of_nat (length B) <= INT_MAX.

(** One bit: lines 53-59, whatever the positions are. *)
Lemma select_progress c shift (j : nat) v :
  progress B ps K v -> nextLine v = true ->
  B !! j = Some c -> 0 <= shift <= 7 ->
  count v = 8 * Z.of_nat j + (7 - shift) ->
  match select c shift v with
  | inl v1 => progress B ps K (count_incr v1) /\ count (count_incr v1) = count v + 1
  | inr _ => True
  end.
Proof using B_fits.
  intros (done & Hps & Hcf & Hidx & Hinc & Hlt & Hcnt & HK & Hres) Hn Hc Hs Hcv.
  assert (Hj : (j < length B)%nat) by (eapply lookup_lt_Some; eauto).
  assert (Hcm : count v < INT_MAX) by lia.
  unfold pending_positions in Hps. rewrite Hn in Hps.
  unfold select.
  destruct (Z.eqb_spec (count v) (nextBit v)) as [Heq|Hne].
  - assert (Hlen : length (result v) = K).
    { rewrite Hres, length_app, length_map, length_replicate. lia. }
    destruct ((0 <=? index v) && (index v <? Z.of_nat (length (result v)))) eqn:Hin;
      [|exact I].
    apply andb_true_iff in Hin as [_ Hin]. apply Z.ltb_lt in Hin.
    rewrite Hlen, Hidx in Hin.
    assert (Hbit : bit_at B (nextBit v) = bit_char c shift).
    { unfold bit_at. rewrite <- Heq, Hcv.
      replace ((8 * Z.of_nat j + (7 - shift)) / 8) with (Z.of_nat j)
        by (apply Z.div_unique with (r := 7 - shift); lia).
      replace ((8 * Z.of_nat j + (7 - shift)) mod 8) with (7 - shift)
        by (apply Z.mod_unique with (q := Z.of_nat j); lia).
      rewrite Nat2Z.id. erewrite nth_lookup_Some by eauto. f_equal. lia. }
    assert (Hres' : <[Z.to_nat (index v) := Some (bit_char c shift)]> (result v)
                    = map (fun p => Some (bit_at B p)) (done ++ [nextBit v])
                        ++ replicate (K - length (done ++ [nextBit v])) None).
    { rewrite Hres, Hidx, Nat2Z.id, length_app. cbn [length].
      replace (K - length done)%nat with (S (K - (length done + 1))) by lia.
      rewrite map_app, <- app_assoc. cbn [map app replicate].
      rewrite <- (length_map (fun p => Some (bit_at B p)) done) at 1.
      rewrite <- (Nat.add_0_r (length (map _ done))).
      rewrite insert_app_r. cbn. rewrite Hbit. reflexivity. }
    assert (Hinc' : increasing_from 0 (done ++ [nextBit v])).
    { apply increasing_from_snoc; [exact Hinc | rewrite <- Heq; exact Hlt | lia]. }
    assert (Hlt' : Forall (fun p => p < count v + 1) (done ++ [nextBit v])).
    { apply Forall_app. split.
      - eapply Forall_impl; [exact Hlt|]. cbn. intros; lia.
      - constructor; [lia | constructor]. }
    destruct (pos_file v) as [|p f] eqn:Hpf.
    + split; [|cbn; apply int_incr_small; lia].
      exists (done ++ [nextBit v]). cbn.
      rewrite (int_incr_small (count v)) by lia.
      rewrite (int_incr_small (index v)) by lia.
      rewrite length_app in *. cbn [length] in *.
      repeat split; try assumption; try lia.
      rewrite <- Hps, ?app_nil_r, <- ?app_assoc. reflexivity.
    + split; [|cbn; apply int_incr_small; lia].
      exists (done ++ [nextBit v]). unfold pending_positions. cbn.
      rewrite (int_incr_small (count v)) by lia.
      rewrite (int_incr_small (index v)) by lia.
      rewrite length_app in *. cbn [length] in *.
      repeat split; try assumption; try lia.
      rewrite <- Hps, ?app_nil_r, <- ?app_assoc. reflexivity.
  - split; [|cbn; apply int_incr_small; lia].
    exists done. unfold pending_positions. cbn. rewrite Hn.
    rewrite (int_incr_small (count v)) by lia.
    repeat split; try assumption; try lia.
    eapply Forall_impl; [exact Hlt|]. cbn. intros; lia.
Qed.

(** One byte: the [for] loop of lines 52-60. *)
Lemma for_shift_progress c (j : nat) :
  B !! j = Some c ->
  forall n v,
    (n <= 8)%nat ->
    progress B ps K v ->
    (nextLine v = true -> count v = 8 * Z.of_nat j + (8 - Z.of_nat n)) ->
    match for_shift n c v with
    | inl v' => progress B ps K v' /\
                (nextLine v' = true -> count v' = 8 * Z.of_nat (S j))
    | inr _ => True
    end.
Proof using B_fits.
  intros Hc. induction n as [|n IH]; intros v Hn HP Hcnt; cbn [for_shift].
  - split; [exact HP|]. intros H. rewrite (Hcnt H). lia.
  - destruct (nextLine v) eqn:Hnl; [|split; [exact HP | intros H; congruence]].
    pose proof (select_progress c (Z.of_nat n) j v HP Hnl Hc ltac:(lia)
                  ltac:(rewrite Hcnt by reflexivity; lia)) as Hsel.
    destruct (select c (Z.of_nat n) v) as [v1|v1]; [|exact I].
    destruct Hsel as [HP1 Hc1].
    apply IH; [lia | exact HP1 |]. intros _. rewrite Hc1, Hcnt by reflexivity. lia.
Qed.

(** The [while] loop from a byte boundary on: it returns only after the
    last position was found. *)
Lemma while_progress :
  forall mem (j : nat) v r,
    drop j B = mem ->
    progress B ps K v ->
    (nextLine v = true -> count v = 8 * Z.of_nat j) ->
    while_nextLine mem v = Key r ->
    exists v', progress B ps K v' /\ nextLine v' = false /\ result v' = r.
Proof using B_fits.
  induction mem as [|c mem IH]; intros j v r Hd HP Hcnt Hw.
  - cbn in Hw. destruct (nextLine v) eqn:Hnl; [discriminate Hw|].
    exists v. repeat split; [exact HP | exact Hnl | congruence].
  - cbn [while_nextLine] in Hw. destruct (nextLine v) eqn:Hnl.
    + assert (Hc : B !! j = Some c).
      { rewrite <- (Nat.add_0_r j), <- lookup_drop, Hd. reflexivity. }
      assert (Hd' : drop (S j) B = mem).
      { erewrite drop_S in Hd by exact Hc. congruence. }
      assert (Hcf : commaFound v = true) by (destruct HP as (? & _ & H & _); exact H).
      rewrite Hcf in Hw.
      pose proof (for_shift_progress c j Hc 8%nat v ltac:(lia) HP
                    ltac:(intros _; rewrite (Hcnt eq_refl); lia)) as Hfor.
      destruct (for_shift 8 c v) as [v'|v']; [|discriminate Hw].
      destruct Hfor as [HP' Hc'].
      exact (IH (S j) v' r Hd' HP' Hc' Hw).
    + exists v. repeat split; [exact HP | exact Hnl | congruence].
Qed.
End Progress.

(** X9.  The extractor checks nothing, but a run that stays in bounds
    had well-formed input.  If the selection returns with every read inside
    the capture string and every write inside the array (the outcome
    [Key]), for a capture with a comma and a non-empty position list, then
    the positions are strictly increasing from 0, each names a bit of the
    bytes behind the first comma (the terminating NUL of the string
    included), there are at most key-size of them, and the returned array
    holds their bits in order, most significant bit first; the cells behind
    them were never written.  On any other input the run leaves the string
    or the array; what it returns after that, if it returns, is outside
    this statement. *)
Theorem X9_key_within_bounds_meets_the_contract pre body positions key_size r :
  ~ In comma pre ->
  positions <> [] ->
  8 * (Z.of_nat (length body) + 1) <= INT_MAX ->
  extract_key (pre ++ comma :: body) positions key_size = Key r ->
  increasing_from 0 positions /\
  Forall (fun p => p < 8 * (Z.of_nat (length body) + 1)) positions /\
  Z.of_nat (length positions) <= key_size /\
  r = map (fun p => Some (bit_at (body ++ [zero]) p)) positions
        ++ replicate (Z.to_nat key_size - length positions) None.
Proof.
  intros Hpre Hne Hfit. unfold extract_key, c_str_mem.
  destruct (key_size <? 0) eqn:Hk; [discriminate|]. apply Z.ltb_ge in Hk.
  rewrite <- app_assoc. cbn [app].
  rewrite skip_to_comma by (auto; destruct positions; reflexivity).
  intros Hw.
  assert (HB : 8 * Z.of_nat (length (body ++ [zero])) <= INT_MAX).
  { rewrite length_app. cbn [length]. lia. }
  destruct (while_progress (body ++ [zero]) positions (Z.to_nat key_size) HB
              (body ++ [zero]) 0%nat (set_commaFound (init positions key_size)) r
              eq_refl) as (v' & HP & Hnl & Hr); [| reflexivity | exact Hw |].
  { exists []. destruct positions as [|p0 ps0]; [congruence|].
    unfold pending_positions. cbn. rewrite Nat.sub_0_r.
    repeat split; try reflexivity; try constructor; lia. }
  destruct HP as (done & Hps & _ & _ & Hinc & Hlt & Hcnt & HK & Hres).
  unfold pending_positions in Hps. rewrite Hnl, app_nil_r in Hps. subst done.
  rewrite length_app in Hcnt. cbn [length] in Hcnt.
  repeat split.
  - exact Hinc.
  - eapply Forall_impl; [exact Hlt|]. cbn. intros; lia.
  - lia.
  - congruence.
Qed.

Lemma X9_witness :
  increasing_from 0 [0; 7] /\
  Forall (fun p => p < 8 * (Z.of_nat (length ["A"%char]) + 1)) [0; 7] /\
  Z.of_nat (length [0; 7]) <= 3 /\
  [Some "0"%char; Some "1"%char; None]
  = map (fun p => Some (bit_at (["A"%char] ++ [zero]) p)) [0; 7]
      ++ replicate (Z.to_nat 3 - length [0; 7]) None.
Proof.
  apply (X9_key_within_bounds_meets_the_contract ["x"%char] ["A"%char] [0; 7] 3).
  - intros [H|[]]; discriminate H.
  - discriminate.
  - cbn. unfold INT_MAX. lia.
  - vm_compute. reflexivity.
Defined.

(** X8.  Nothing before the first comma of the capture matters: with or
    without these bytes the extraction (of a non-empty position list) has
    the same outcome, the same key or the same out-of-bounds access. *)
Theorem X8_bytes_before_the_comma_are_skipped pre body positions key_size :
  ~ In comma pre ->
  positions <> [] ->
  extract_key (pre ++ comma :: body) positions key_size
  = extract_key (comma :: body) positions key_size.
Proof.
  intros Hpre _. unfold extract_key, c_str_mem.
  destruct (key_size <? 0); [reflexivity|].
  rewrite <- app_assoc. cbn [app].
  rewrite skip_to_comma by (auto; reflexivity).
  rewrite (skip_to_comma [] (body ++ [zero])) by (auto; reflexivity).
  reflexivity.
Qed.

Lemma X8_witness :
  extract_key (["x"; "y"]%char ++ comma :: ["A"%char]) [0; 7] 2
  = extract_key (comma :: ["A"%char]) [0; 7] 2.
Proof.
  apply (X8_bytes_before_the_comma_are_skipped ["x"; "y"]%char ["A"%char] [0; 7] 2).
  - intros [H|[H|[]]]; discriminate H.
  - discriminate.
Defined.

(** X10.  A capture without a comma is read past its end.  The loop
    compares the bytes of the string and its terminator with the comma one
    by one, does not stop there and dereferences [in] behind the
    terminator; no cell of the array was written by then.  This is what
    happens for an empty capture, for every position file and every key
    size.  (Whether the program then finds a comma in the memory that
    follows and returns an array is not determined by the source.) *)
Theorem X10_capture_without_comma_is_read_past_its_end out_str positions key_size :
  ~ In comma out_str -> 0 <= key_size ->
  exists v,
    extract_key out_str positions key_size = ReadOverrun v /\
    commaFound v = false /\
    result v = replicate (Z.to_nat key_size) None.
Proof.
  intros Hno Hk. exists (init positions key_size).
  split; [apply no_comma_overrun; assumption|]. split; reflexivity.
Qed.

Lemma X10_witness :
  exists v,
    extract_key [] [0; 7] 2 = ReadOverrun v /\
    commaFound v = false /\
    result v = replicate (Z.to_nat 2) None.
Proof.
  apply (X10_capture_without_comma_is_read_past_its_end [] [0; 7] 2).
  - intros [].
  - lia.
Defined.

End KeySelectionFacts.

(* ================================================================== *)
(** * The SDRAM self test *)

Module SdramFacts.
Import Sdram.

Lemma pattern_at k :
  pattern (4 * k) = RT_PAT0 /\ pattern (4 * k + 1) = RT_PAT1 /\
  pattern (4 * k + 2) = RT_PAT2 /\ pattern (4 * k + 3) = RT_PAT0.
Proof.
  unfold pattern.
  replace ((4 * k) mod 4) with 0 by (apply Z.mod_unique with (q := k); lia).
  replace ((4 * k + 1) mod 4) with 1 by (apply Z.mod_unique with (q := k); lia).
  replace ((4 * k + 2) mod 4) with 2 by (apply Z.mod_unique with (q := k); lia).
  replace ((4 * k + 3) mod 4) with 3 by (apply Z.mod_unique with (q := k); lia).
  cbn. auto.
Qed.

Section SelfTestFacts.
Variable keeps : Z -> Z -> Z.
Variable addr : Z.

(** After the first loop every cell from index [4 k] on holds what it
    keeps of its pattern, and nothing else has changed. *)
Lemma write_loop_spec fuel :
  forall k m,
    0 <= k -> 0x400 - k <= Z.of_nat fuel ->
    exists m',
      write_loop keeps fuel addr (4 * k) m = Some m' /\
      (forall j, 4 * k <= j < 0x1000 ->
                 m' (addr + 4 * j) = keeps (addr + 4 * j) (pattern j)) /\
      (forall x, (forall j, 4 * k <= j < 0x1000 -> x <> addr + 4 * j) -> m' x = m x).
Proof using Type.
  induction fuel as [|fuel IH]; intros k m Hk Hf; cbn [write_loop].
  - replace (4 * k <? 4096) with false by (symmetry; apply Z.ltb_ge; lia).
    exists m. split; [reflexivity|]. split; [intros; lia | reflexivity].
  - destruct (Z.ltb_spec (4 * k) 4096) as [Hlt|Hge].
    + cbv zeta.
      replace (4 * k + 4) with (4 * (k + 1)) by lia.
      destruct (IH (k + 1)
                  (ram_set keeps addr (4 * k + 3) RT_PAT0
                     (ram_set keeps addr (4 * k + 2) RT_PAT2
                        (ram_set keeps addr (4 * k + 1) RT_PAT1
                           (ram_set keeps addr (4 * k) RT_PAT0 m))))
                  ltac:(lia) ltac:(lia)) as (m' & Hw & HA & HB).
      exists m'. split; [exact Hw|].
      destruct (pattern_at k) as (P0 & P1 & P2 & P3).
      split.
      * intros j Hj.
        destruct (Z_lt_le_dec j (4 * (k + 1))) as [Hlow|Hhigh]; [|apply HA; lia].
        rewrite HB by (intros j' Hj'; lia).
        unfold ram_set.
        assert (Hcase : j = 4 * k \/ j = 4 * k + 1 \/ j = 4 * k + 2 \/ j = 4 * k + 3) by lia.
        destruct Hcase as [-> | [-> | [-> | ->]]];
          repeat match goal with
                 | |- context [?a =? ?b] => destruct (Z.eqb_spec a b); try lia
                 end; congruence.
      * intros x Hx. rewrite HB by (intros j' Hj'; apply Hx; lia).
        unfold ram_set.
        repeat match goal with
               | |- context [?a =? ?b] =>
                   destruct (Z.eqb_spec a b) as [E|_];
                   [exfalso; refine (Hx _ _ E); lia|]
               end.
        reflexivity.
    + exists m. split; [reflexivity|]. split; [intros; lia | reflexivity].
Qed.

(** The second loop ends at the first cell, from index [4 k] on, that does
    not hold its pattern. *)
Lemma check_loop_spec fuel :
  forall k m,
    0 <= k -> 0x400 - k <= Z.of_nat fuel ->
    match check_loop fuel addr (4 * k) m with
    | Some Passed => forall j, 4 * k <= j < 0x1000 -> m (addr + 4 * j) = pattern j
    | Some (Failed i) =>
        4 * k <= i < 0x1000 /\ m (addr + 4 * i) <> pattern i /\
        forall j, 4 * k <= j < i -> m (addr + 4 * j) = pattern j
    | None => False
    end.
Proof using Type.
  induction fuel as [|fuel IH]; intros k m Hk Hf; cbn [check_loop].
  - replace (4 * k <? 4096) with false by (symmetry; apply Z.ltb_ge; lia).
    intros; lia.
  - destruct (Z.ltb_spec (4 * k) 4096) as [Hlt|Hge]; [|intros; lia].
    destruct (pattern_at k) as (P0 & P1 & P2 & P3).
    unfold ram_get.
    destruct (Z.eqb_spec (m (addr + 4 * (4 * k))) RT_PAT0) as [E0|N0]; cbn [negb].
    2:{ split; [lia|]. split; [congruence | intros; lia]. }
    destruct (Z.eqb_spec (m (addr + 4 * (4 * k + 1))) RT_PAT1) as [E1|N1]; cbn [negb].
    2:{ split; [lia|]. split; [congruence|]. intros j Hj.
        assert (j = 4 * k) as -> by lia. congruence. }
    destruct (Z.eqb_spec (m (addr + 4 * (4 * k + 2))) RT_PAT2) as [E2|N2]; cbn [negb].
    2:{ split; [lia|]. split; [congruence|]. intros j Hj.
        assert (Hc : j = 4 * k \/ j = 4 * k + 1) by lia.
        destruct Hc as [-> | ->]; congruence. }
    destruct (Z.eqb_spec (m (addr + 4 * (4 * k + 3))) RT_PAT0) as [E3|N3]; cbn [negb].
    2:{ split; [lia|]. split; [congruence|]. intros j Hj.
        assert (Hc : j = 4 * k \/ j = 4 * k + 1 \/ j = 4 * k + 2) by lia.
        destruct Hc as [-> | [-> | ->]]; congruence. }
    assert (Hfirst : forall j, 4 * k <= j < 4 * (k + 1) -> m (addr + 4 * j) = pattern j).
    { intros j Hj.
      assert (Hc : j = 4 * k \/ j = 4 * k + 1 \/ j = 4 * k + 2 \/ j = 4 * k + 3) by lia.
      destruct Hc as [-> | [-> | [-> | ->]]]; congruence. }
    replace (4 * k + 4) with (4 * (k + 1)) by lia.
    specialize (IH (k + 1) m ltac:(lia) ltac:(lia)).
    destruct (check_loop fuel addr (4 * (k + 1)) m) as [[|i]|]; [| |exact IH].
    + intros j Hj. destruct (Z_lt_le_dec j (4 * (k + 1))); [apply Hfirst | apply IH]; lia.
    + destruct IH as (Hi & Hbad & Hok). split; [lia|]. split; [exact Hbad|].
      intros j Hj. destruct (Z_lt_le_dec j (4 * (k + 1))); [apply Hfirst | apply Hok]; lia.
Qed.
End SelfTestFacts.

(** The verdict of [selftest_at], read off the two loops. *)
Lemma selftest_at_verdict keeps addr m :
  match selftest_at keeps addr m with
  | Some (_, Passed) =>
      forall j, 0 <= j < 0x1000 -> keeps (addr + 4 * j) (pattern j) = pattern j
  | Some (_, Failed i) =>
      0 <= i < 0x1000 /\ keeps (addr + 4 * i) (pattern i) <> pattern i /\
      forall j, 0 <= j < i -> keeps (addr + 4 * j) (pattern j) = pattern j
  | None => False
  end.
Proof.
  unfold selftest_at.
  destruct (write_loop_spec keeps addr 0x400 0 m ltac:(lia) ltac:(lia))
    as (m' & Hw & HA & _).
  change (4 * 0) with 0 in *. rewrite Hw.
  pose proof (check_loop_spec addr 0x400 0 m' ltac:(lia) ltac:(lia)) as Hc.
  change (4 * 0) with 0 in *.
  destruct (check_loop 0x400 addr 0 m') as [[|i]|]; [| |exact Hc].
  - intros j Hj. rewrite <- HA by lia. apply Hc. lia.
  - destruct Hc as (Hi & Hbad & Hok). split; [exact Hi|]. split.
    + rewrite <- HA by lia. exact Hbad.
    + intros j Hj. rewrite <- HA by lia. apply Hok. lia.
Qed.

(** What [selftest_at] leaves in the memory. *)
Lemma selftest_at_memory keeps addr m m' v :
  selftest_at keeps addr m = Some (m', v) ->
  (forall j, 0 <= j < 0x1000 -> m' (addr + 4 * j) = keeps (addr + 4 * j) (pattern j)) /\
  (forall x, (forall j, 0 <= j < 0x1000 -> x <> addr + 4 * j) -> m' x = m x).
Proof.
  unfold selftest_at.
  destruct (write_loop_spec keeps addr 0x400 0 m ltac:(lia) ltac:(lia))
    as (m1 & Hw & HA & HB).
  change (4 * 0) with 0 in *. rewrite Hw.
  destruct (check_loop 0x400 addr 0 m1); [|discriminate].
  intros [= <- _]. split; assumption.
Qed.

(** X14.  [selftest_at] on a region of the address space always ends, and
    its verdict is exact for write faults: it passes when each of the
    0x1000 words from [addr] on keeps the pattern written to it, and
    otherwise panics at the first word, in address order, that does not.
    Each word is tried with one pattern only, so that a cell stuck at the
    value of its pattern is not found. *)
Theorem X14_selftest_at_finds_the_first_bad_word keeps addr m :
  0 <= addr -> addr + 4 * 0x1000 <= 2 ^ 32 ->
  exists m' v,
    selftest_at keeps addr m = Some (m', v) /\
    match v with
    | Passed =>
        forall j, 0 <= j < 0x1000 -> keeps (addr + 4 * j) (pattern j) = pattern j
    | Failed i =>
        0 <= i < 0x1000 /\ keeps (addr + 4 * i) (pattern i) <> pattern i /\
        forall j, 0 <= j < i -> keeps (addr + 4 * j) (pattern j) = pattern j
    end.
Proof.
  intros _ _. pose proof (selftest_at_verdict keeps addr m) as Hv.
  destruct (selftest_at keeps addr m) as [[m' v]|]; [|contradiction].
  exists m', v. split; [reflexivity|]. destruct v; exact Hv.
Qed.

Lemma X14_witness :
  exists m' v,
    selftest_at (fun _ v => v) RT_BASE (fun _ => 0) = Some (m', v) /\
    match v with
    | Passed =>
        forall j, 0 <= j < 0x1000 ->
                  (fun _ v : Z => v) (RT_BASE + 4 * j) (pattern j) = pattern j
    | Failed i =>
        0 <= i < 0x1000 /\
        (fun _ v : Z => v) (RT_BASE + 4 * i) (pattern i) <> pattern i /\
        forall j, 0 <= j < i ->
                  (fun _ v : Z => v) (RT_BASE + 4 * j) (pattern j) = pattern j
    end.
Proof.
  apply (X14_selftest_at_finds_the_first_bad_word (fun _ v => v) RT_BASE (fun _ => 0)).
  - unfold RT_BASE. lia.
  - unfold RT_BASE. lia.
Defined.

(** X15.  On sound memory [selftest_at] passes, and what it leaves behind
    is the four-word pattern in the 0x1000 words (16 KiB) from [addr] on;
    every other word of the memory is as it was: the test destroys the
    content of the region it tests and of nothing else. *)
Theorem X15_selftest_at_on_sound_memory addr m :
  0 <= addr -> addr + 4 * 0x1000 <= 2 ^ 32 ->
  exists m',
    selftest_at (fun _ v => v) addr m = Some (m', Passed) /\
    (forall j, 0 <= j < 0x1000 -> m' (addr + 4 * j) = pattern j) /\
    (forall x, (forall j, 0 <= j < 0x1000 -> x <> addr + 4 * j) -> m' x = m x).
Proof.
  intros _ _.
  pose proof (selftest_at_verdict (fun _ v => v) addr m) as Hv.
  destruct (selftest_at (fun _ v => v) addr m) as [[m' [|i]]|] eqn:E; [| |contradiction].
  - exists m'. split; [reflexivity|]. exact (selftest_at_memory _ _ _ _ _ E).
  - destruct Hv as (_ & Hbad & _). exfalso. apply Hbad. reflexivity.
Qed.

Lemma X15_witness :
  exists m',
    selftest_at (fun _ v => v) RT_BASE (fun _ => 0) = Some (m', Passed) /\
    (forall j, 0 <= j < 0x1000 -> m' (RT_BASE + 4 * j) = pattern j) /\
    (forall x, (forall j, 0 <= j < 0x1000 -> x <> RT_BASE + 4 * j) -> m' x = 0).
Proof.
  apply (X15_selftest_at_on_sound_memory RT_BASE (fun _ => 0)).
  - unfold RT_BASE. lia.
  - unfold RT_BASE. lia.
Defined.

(** The verdict of [selftest]: the regions in turn. *)
Lemma selftest_over_verdict keeps regions :
  forall m,
    match selftest_over keeps regions m with
    | Some (_, Passed, _) =>
        forall base j, In base regions -> 0 <= j < 0x1000 ->
                       keeps (base + 4 * j) (pattern j) = pattern j
    | Some (_, Failed i, culprit) =>
        exists base, culprit = Some base /\ In base regions /\ 0 <= i < 0x1000 /\
                     keeps (base + 4 * i) (pattern i) <> pattern i
    | None => False
    end.
Proof.
  induction regions as [|addr regions IH]; intros m; cbn [selftest_over].
  - intros base j [].
  - pose proof (selftest_at_verdict keeps addr m) as Hv.
    destruct (selftest_at keeps addr m) as [[m' [|i]]|]; [| |exact Hv].
    + specialize (IH m').
      destruct (selftest_over keeps regions m') as [[[m2 [|i]] c]|]; [| |exact IH].
      * intros base j [<-|Hin] Hj; [apply Hv, Hj | exact (IH base j Hin Hj)].
      * destruct IH as (base & -> & Hin & Hi & Hbad).
        exists base. repeat split; try assumption; try lia. now right.
    + destruct Hv as (Hi & Hbad & _).
      exists addr. repeat split; try assumption; try lia. now left.
Qed.

(** X16.  [selftest] always ends, for every RAM size.  It passes exactly
    when every word of every region it tests keeps its pattern; when it
    panics, the word that failed is a word of one of these regions that
    does not keep its pattern. *)
Theorem X16_selftest_verdict keeps g_RAMSize m :
  match selftest keeps g_RAMSize m with
  | Some (_, Passed, _) =>
      forall base j, In base (selftest_regions g_RAMSize) -> 0 <= j < 0x1000 ->
                     keeps (base + 4 * j) (pattern j) = pattern j
  | Some (_, Failed i, culprit) =>
      exists base, culprit = Some base /\ In base (selftest_regions g_RAMSize) /\
                   0 <= i < 0x1000 /\ keeps (base + 4 * i) (pattern i) <> pattern i
  | None => False
  end.
Proof. apply selftest_over_verdict. Qed.

(** X17.  Where [selftest] looks.  For 128 MB, 512 MB and 1 GB every
    tested region lies inside the memory, counted from [RT_BASE].  For
    256 MB the third region starts at offset 0x1FF00000, beyond the 256 MB
    of the part; and for 512 MB no tested region lies in the upper half of
    the memory. *)
Theorem X17_selftest_regions :
  (forall sz n base,
      ram_bytes sz = Some n -> sz <> kRamSize256MB ->
      In base (selftest_regions sz) ->
      RT_BASE <= base /\ base + 4 * 0x1000 <= RT_BASE + n) /\
  (In (RT_BASE + 0x1FF00000) (selftest_regions kRamSize256MB) /\
   RT_BASE + 2 ^ 28 <= RT_BASE + 0x1FF00000) /\
  (forall base, In base (selftest_regions kRamSize512MB) ->
                base + 4 * 0x1000 <= RT_BASE + 2 ^ 28).
Proof.
  split; [|split].
  - intros sz n base Hn Hne Hin.
    destruct sz; cbn in Hn; try congruence; injection Hn as <-; cbn in Hin;
      repeat (destruct Hin as [<-|Hin]; [vm_compute; split; discriminate|]);
      destruct Hin.
  - split; [vm_compute; auto 10 | vm_compute; discriminate].
  - intros base Hin. cbn in Hin.
    repeat (destruct Hin as [<-|Hin]; [vm_compute; discriminate|]). destruct Hin.
Qed.

Lemma X17_witness :
  RT_BASE <= (RT_BASE + 0x3FF00000) mod 2 ^ 32 /\
  (RT_BASE + 0x3FF00000) mod 2 ^ 32 + 4 * 0x1000 <= RT_BASE + 2 ^ 30.
Proof.
  apply (proj1 X17_selftest_regions kRamSize1GB (2 ^ 30) ((RT_BASE + 0x3FF00000) mod 2 ^ 32)).
  - reflexivity.
  - discriminate.
  - vm_compute. auto 10.
Defined.

End SdramFacts.
